(** * The [read_until] input of benthos: a termination decorator

    A shallow embedding of [lib/input/read_until.go].  The worker goroutine
    [ReadUntil.loop] is a machine whose program counter names the places
    where the Go code blocks or touches shared memory; what the other
    goroutines do at those places (the wrapped producer, the downstream
    consumer, callers of [CloseAsync]) is an event handed to the machine. *)

From Stdlib Require Import ZArith List String Bool Lia Arith.
Import ListNotations.
Open Scope string_scope.
Open Scope Z_scope.

Set Implicit Arguments.
Set Warnings "-register-all".

(* ------------------------------------------------------------------ *)
(** ** Messages, responses, transactions *)

(** A [types.Message] is a list of parts; the code of this file only hands it
    to the condition and forwards it. *)
Definition Message := list string.

(** A [types.Response]; the only thing [loop] asks of it is [Error()]. *)
Inductive Response : Type :=
| SimpleResponse (err : option string).

Definition Error (res : Response) : option string :=
  match res with SimpleResponse e => e end.

(** Identity of a [chan types.Response].  Channels carried by the
    transactions of a wrapped producer were made upstream; [Intercept n] is
    the channel returned by the [n]-th [make(chan types.Response)] executed
    by [loop] itself. *)
Inductive RespChan : Type :=
| Upstream (n : nat)
| Intercept (n : nat).

Record Transaction : Type := NewTransaction {
  Payload : Message;
  ResponseChan : RespChan
}.

(** State of a channel that is only ever closed ([chan struct{}]) or whose
    buffer is empty ([r.transactions] is unbuffered). *)
Inductive ChanState : Type := Open | Closed.

(** [close(c)]: closing a closed channel panics. *)
Definition close (c : ChanState) : option ChanState :=
  match c with
  | Open => Some Closed
  | Closed => None
  end.

Definition is_closed (c : ChanState) : bool :=
  match c with Closed => true | Open => false end.

(* ------------------------------------------------------------------ *)
(** ** Configuration *)

Record FileConfig : Type := { Path : string; Multipart : bool }.

Record ContentConfig : Type := { Operator : string; Arg : string }.

(** [condition.Config], as far as the tests of this input set it. *)
Record CondConfig : Type := {
  cType : string;
  Content : ContentConfig;
  Static : bool
}.

(** [input.Config] and [ReadUntilConfig] refer to each other through the
    pointer [Input *Config]. *)
Inductive Config : Type :=
| mkConfig (Type_ : string) (File : FileConfig) (rdUntil : ReadUntilConfig)
with ReadUntilConfig : Type :=
| mkReadUntilConfig (Input : option Config) (Restart : bool)
                    (Condition : CondConfig).

Definition Type_ (c : Config) : string :=
  match c with mkConfig t _ _ => t end.
Definition File (c : Config) : FileConfig :=
  match c with mkConfig _ f _ => f end.
Definition cReadUntil (c : Config) : ReadUntilConfig :=
  match c with mkConfig _ _ r => r end.
Definition Input (r : ReadUntilConfig) : option Config :=
  match r with mkReadUntilConfig i _ _ => i end.
Definition Restart (r : ReadUntilConfig) : bool :=
  match r with mkReadUntilConfig _ b _ => b end.
Definition Condition (r : ReadUntilConfig) : CondConfig :=
  match r with mkReadUntilConfig _ _ c => c end.

(** [NewReadUntilConfig]; [condition.NewConfig()] is defined elsewhere and
    is taken as an argument. *)
Definition NewReadUntilConfig (condition_NewConfig : CondConfig)
  : ReadUntilConfig :=
  mkReadUntilConfig None false condition_NewConfig.

(* ------------------------------------------------------------------ *)
(** ** Marshalling *)

(** The document tree that [encoding/json] and the YAML encoder print. *)
Inductive Value : Type :=
| VNull
| VBool (b : bool)
| VString (s : string)
| VObject (fields : list (string * Value)).

Fixpoint member (k : string) (fs : list (string * Value)) : option Value :=
  match fs with
  | [] => None
  | (k', v) :: fs' => if String.eqb k k' then Some v else member k fs'
  end.

Definition lookup (k : string) (v : Value) : option Value :=
  match v with
  | VObject fs => member k fs
  | _ => None
  end.

(** What the [interface{}] field of the dummy struct can hold: the pointer
    [r.Input] (possibly nil) or the empty struct. *)
Inductive DummyInput : Type :=
| ConfigPtr (p : option Config)
| EmptyStruct.

Record dummyReadUntilConfig : Type := {
  dInput : DummyInput;
  dCondition : CondConfig
}.

Definition MarshalYAML (r : ReadUntilConfig) : dummyReadUntilConfig :=
  let dummy := {| dInput := ConfigPtr (Input r); dCondition := Condition r |} in
  match Input r with
  | None => {| dInput := EmptyStruct; dCondition := dCondition dummy |}
  | Some _ => dummy
  end.

Section Marshal.
(** Encoders and decoders of the types declared outside this file. *)
Variable encode_Config : Config -> Value.
Variable encode_Condition : CondConfig -> Value.
Variable decode_Config : Value -> option Config -> option Config.
Variable decode_Condition : Value -> CondConfig -> CondConfig.

(** The encoder on a [dummyReadUntilConfig]: one member per tagged field,
    [input] and [condition]; the struct has no other field. *)
Definition encode_dummy (d : dummyReadUntilConfig) : Value :=
  VObject
    [ ("input",
       match dInput d with
       | ConfigPtr None => VNull
       | ConfigPtr (Some c) => encode_Config c
       | EmptyStruct => VObject []
       end);
      ("condition", encode_Condition (dCondition d)) ].

Definition MarshalJSON (r : ReadUntilConfig) : Value :=
  let dummy := {| dInput := ConfigPtr (Input r); dCondition := Condition r |} in
  let dummy :=
    match Input r with
    | None => {| dInput := EmptyStruct; dCondition := dCondition dummy |}
    | Some _ => dummy
    end in
  encode_dummy dummy.

(** Decoding into a [ReadUntilConfig] follows the tags of the struct
    ([input], [restart_input], [condition]): a member that is present is
    decoded into its field, a field whose member is absent (or, for the
    boolean, is not a boolean) keeps the value the target had. *)
Definition Unmarshal (v : Value) (into : ReadUntilConfig) : ReadUntilConfig :=
  match v with
  | VObject fs =>
      mkReadUntilConfig
        (match member "input" fs with
         | Some x => decode_Config x (Input into)
         | None => Input into
         end)
        (match member "restart_input" fs with
         | Some (VBool b) => b
         | _ => Restart into
         end)
        (match member "condition" fs with
         | Some x => decode_Condition x (Condition into)
         | None => Condition into
         end)
  | _ => into
  end.
End Marshal.

(* ------------------------------------------------------------------ *)
(** ** The decorator *)

(** A live instance of the wrapped input (the interface value [Type]). *)
Definition Producer := nat.

(** A [condition.Type].  A condition may keep state between calls; a
    deterministic one is a function of the payloads it was asked about
    before (oldest first) and of the current one. *)
Record CondT : Type := { check_fn : list Message -> Message -> bool }.

Definition Check (c : CondT) (asked : list Message) (m : Message) : bool :=
  check_fn c asked m.

(** The fields of [ReadUntil] that [loop], [CloseAsync] and [WaitForClose]
    read or write.  The manager, the loggers and the metrics handles are
    only passed on; calls on them are recorded in the [World] below. *)
Record ReadUntil : Type := {
  running : Z;
  conf : ReadUntilConfig;
  wrapped : option Producer;
  cond : CondT;
  transactions : ChanState;
  closeChan : ChanState;
  closedChan : ChanState
}.

Definition set_running (v : Z) (r : ReadUntil) : ReadUntil :=
  {| running := v; conf := conf r; wrapped := wrapped r; cond := cond r;
     transactions := transactions r; closeChan := closeChan r;
     closedChan := closedChan r |}.

Definition set_wrapped (p : option Producer) (r : ReadUntil) : ReadUntil :=
  {| running := running r; conf := conf r; wrapped := p; cond := cond r;
     transactions := transactions r; closeChan := closeChan r;
     closedChan := closedChan r |}.

Definition set_transactions (c : ChanState) (r : ReadUntil) : ReadUntil :=
  {| running := running r; conf := conf r; wrapped := wrapped r; cond := cond r;
     transactions := c; closeChan := closeChan r;
     closedChan := closedChan r |}.

Definition set_closeChan (c : ChanState) (r : ReadUntil) : ReadUntil :=
  {| running := running r; conf := conf r; wrapped := wrapped r; cond := cond r;
     transactions := transactions r; closeChan := c;
     closedChan := closedChan r |}.

Definition set_closedChan (c : ChanState) (r : ReadUntil) : ReadUntil :=
  {| running := running r; conf := conf r; wrapped := wrapped r; cond := cond r;
     transactions := transactions r; closeChan := closeChan r;
     closedChan := c |}.

(** [NewReadUntil].  The constructors [New] (of inputs) and [condition.New]
    live in other files and are arguments; each returns a live value or an
    error.  The goroutine started by [go rdr.loop()] is [spawn] below. *)
Definition NewReadUntil
    (New : Config -> Producer + string)
    (condition_New : CondConfig -> CondT + string)
    (conf : Config) : ReadUntil + string :=
  match Input (cReadUntil conf) with
  | None => inr "cannot create read_until input without a child"
  | Some child =>
      match New child with
      | inr err =>
          inr ("failed to create input '" ++ Type_ child ++ "': " ++ err)
      | inl wrapped =>
          match condition_New (Condition (cReadUntil conf)) with
          | inr err =>
              inr ("failed to create condition '"
                     ++ cType (Condition (cReadUntil conf)) ++ "': " ++ err)
          | inl cond =>
              inl {| running := 1;
                     conf := cReadUntil conf;
                     wrapped := Some wrapped;
                     cond := cond;
                     transactions := Open;
                     closeChan := Open;
                     closedChan := Open |}
          end
      end
  end.

(** [TransactionChan] returns the transactions channel. *)
Definition TransactionChan (r : ReadUntil) : ChanState := transactions r.

(** [atomic.CompareAndSwapInt32]: the new content of the cell and whether
    the swap took place. *)
Definition CompareAndSwapInt32 (cell old new : Z) : Z * bool :=
  if cell =? old then (new, true) else (cell, false).

(** [CloseAsync], run without interruption by one caller.  [None] is the
    panic of closing a closed channel. *)
Definition CloseAsync (r : ReadUntil) : option ReadUntil :=
  let (v, swapped) := CompareAndSwapInt32 (running r) 1 0 in
  if swapped then
    match close (closeChan r) with
    | Some c => Some (set_closeChan c (set_running v r))
    | None => None
    end
  else Some r.

(** [types.ErrTimeout]. *)
Definition ErrTimeout : string := "action timed out".

(** [WaitForClose].  The select has two cases: a receive on [r.closedChan],
    ready once that channel is closed, and the timer of
    [time.After(timeout)], ready once the deadline has [elapsed].  With no
    case ready the call blocks ([None]); with both ready Go takes either,
    [pick_timer] tells which.  The result is the receiver as the call leaves
    it and the returned error. *)
Definition WaitForClose (r : ReadUntil) (elapsed pick_timer : bool)
  : option (ReadUntil * option string) :=
  match is_closed (closedChan r), elapsed with
  | true, false => Some (r, None)
  | false, true => Some (r, Some ErrTimeout)
  | true, true => if pick_timer then Some (r, Some ErrTimeout) else Some (r, None)
  | false, false => None
  end.

(* ------------------------------------------------------------------ *)
(** ** The worker goroutine and its environment *)

(** Calls on the metrics handle [r.stats]. *)
Inductive StatCall : Type :=
| Incr (name : string) (n : Z)
| Decr (name : string) (n : Z).

(** What the decorator does to the world outside it. *)
Inductive Obs : Type :=
| ONew (c : Config) (res : Producer + string)   (* New on the stored config *)
| ORecv (p : Producer) (t : Transaction)        (* t read from p's channel *)
| ORecvClosed (p : Producer)                    (* p's channel seen closed *)
| OCheck (m : Message) (b : bool)               (* r.cond.Check(m) gave b *)
| OMake (c : RespChan)                          (* make(chan types.Response) *)
| OSend (t : Transaction)                       (* t taken from r.transactions *)
| ORes (c : RespChan) (res : Response)          (* res read from tmpRes *)
| ORelay (c : RespChan) (res : Response)        (* res taken from tran.ResponseChan *)
| OWrappedCloseAsync (p : Producer)
| OWrappedWaitForClose (p : Producer) (err : option string)
| OCloseTransactions                            (* close(r.transactions) *)
| OCloseClosedChan                              (* close(r.closedChan) *)
| OSwap                                         (* the swap of r.running 1 -> 0 *)
| OCloseCloseChan.                              (* close(r.closeChan) *)

(** Where the worker stands in [loop]. *)
Inductive PC : Type :=
| PStart                      (* entry of loop *)
| PLoopHead                   (* the guard of runLoop *)
| PRestart                    (* about to call New *)
| PRecv                       (* select: wrapped channel / closeChan *)
| PSend (tran : Transaction)  (* select: send tran / closeChan *)
| PSendFinal (tran : Transaction) (tmpRes : RespChan)
| PAwait (tran : Transaction) (tmpRes : RespChan)
| PRelay (tran : Transaction) (res : Response) (streamEnds : bool)
| PDefer                      (* the deferred function starts *)
| PDeferWait                  (* r.wrapped.WaitForClose(time.Second) *)
| PDeferCloseTx               (* before close(r.transactions) *)
| PDeferCloseClosed           (* before close(r.closedChan) *)
| PDone.

Record World : Type := {
  ru : ReadUntil;
  pc : PC;
  trace : list Obs;        (* newest first *)
  stats : list StatCall;   (* newest first *)
  logs : list string;      (* r.log.Errorf, newest first *)
  closers : nat;           (* CloseAsync callers between swap and close *)
  panicked : bool
}.

(** The goroutine started by [go rdr.loop()]. *)
Definition spawn (r : ReadUntil) : World :=
  {| ru := r; pc := PStart; trace := []; stats := []; logs := [];
     closers := 0%nat; panicked := false |}.

Definition upd (w : World) (r : ReadUntil) (p : PC)
    (obs : list Obs) (sts : list StatCall) : World :=
  {| ru := r; pc := p; trace := obs ++ trace w; stats := sts ++ stats w;
     logs := logs w; closers := closers w; panicked := panicked w |}.

Definition goto (p : PC) (w : World) : World := upd w (ru w) p [] [].

Definition logf (msg : string) (w : World) : World :=
  {| ru := ru w; pc := pc w; trace := trace w; stats := stats w;
     logs := msg :: logs w; closers := closers w; panicked := panicked w |}.

(** A Go panic (nil dereference, send on or close of a closed channel)
    aborts the program; the model stops in a world marked [panicked]. *)
Definition panic (w : World) : World :=
  {| ru := ru w; pc := pc w; trace := trace w; stats := stats w;
     logs := logs w; closers := closers w; panicked := true |}.

(** The payloads the condition has been asked about, oldest first. *)
Fixpoint asked (tr : list Obs) : list Message :=
  match tr with
  | [] => []
  | OCheck m _ :: tr' => asked tr' ++ [m]
  | _ :: tr' => asked tr'
  end.

(** The number of response channels [loop] has made. *)
Fixpoint made (tr : list Obs) : nat :=
  match tr with
  | [] => 0%nat
  | OMake _ :: tr' => S (made tr')
  | _ :: tr' => made tr'
  end.

(** What the environment contributes to one step of the worker.  A
    producer hands over transactions whose acknowledgement channel was made
    upstream ([Recv m n] stands for the transaction of payload [m] and
    channel [Upstream n]; the same channel may serve many transactions).
    The consumer of an intercepted transaction answers on [tmpRes] with a
    response, as the transaction protocol asks; it does not close that
    channel. *)
Inductive WorkerEv : Type :=
| Tick                              (* a step that needs nothing *)
| NewReturns (res : Producer + string) (* New gives a producer or an error *)
| Recv (m : Message) (resChan : nat) (* the producer hands over a transaction *)
| RecvClosed                        (* the producer's channel is closed *)
| CloseSignal                       (* the case <-r.closeChan is taken *)
| Taken                             (* the value offered is received *)
| Res (res : Response)              (* downstream answers on tmpRes *)
| WrappedClosed (err : option string).

(** The select on [r.closeChan]: ready only once the channel is closed;
    nothing is ever sent on it. *)
Definition on_close (w : World) : option World :=
  if is_closed (closeChan (ru w)) then Some (goto PDefer w) else None.

(** One step of [loop]: from one place where it blocks or reads shared
    memory to the next.  [None]: the event is not on offer at this place. *)
Definition loop_step (e : WorkerEv) (w : World) : option World :=
  let r := ru w in
  match pc w, e with
  | PStart, Tick =>
      Some (upd w r PLoopHead [] [Incr "input.read_until.running" 1])
  | PLoopHead, Tick =>
      if running r =? 1 then
        match wrapped r with
        | None =>
            if Restart (conf r) then Some (goto PRestart w)
            else Some (goto PDefer w)
        | Some _ => Some (goto PRecv w)
        end
      else Some (goto PDefer w)
  | PRestart, NewReturns res =>
      match Input (conf r) with
      | None => Some (panic w)
      | Some c =>
          match res with
          | inr err =>
              Some (logf ("Failed to create input '" ++ Type_ c ++ "': " ++ err)
                      (upd w (set_wrapped None r) PDefer [ONew c res]
                         [Incr "input.read_until.input.restart.error" 1]))
          | inl p =>
              Some (upd w (set_wrapped (Some p) r) PRecv [ONew c res]
                      [Incr "input.read_until.input.restart.success" 1])
          end
      end
  | PRecv, _ =>
      match wrapped r with
      | None => Some (panic w)
      | Some p =>
          match e with
          | Recv m n =>
              let tran := NewTransaction m (Upstream n) in
              let b := Check (cond r) (asked (trace w)) (Payload tran) in
              if negb b then
                Some (upd w r (PSend tran)
                        [OCheck (Payload tran) b; ORecv p tran]
                        [Incr "input.read_until.count" 1])
              else
                let tmpRes := Intercept (made (trace w)) in
                Some (upd w r (PSendFinal tran tmpRes)
                        [OMake tmpRes; OCheck (Payload tran) b; ORecv p tran]
                        [Incr "input.read_until.count" 1])
          | RecvClosed =>
              Some (upd w (set_wrapped None r) PLoopHead [ORecvClosed p]
                      [Incr "input.read_until.input.closed" 1])
          | CloseSignal => on_close w
          | _ => None
          end
      end
  | PSend tran, Taken =>
      if is_closed (transactions r) then Some (panic w)
      else Some (upd w r PLoopHead [OSend tran]
                   [Incr "input.read_until.propagated" 1])
  | PSend _, CloseSignal => on_close w
  | PSendFinal tran tmpRes, Taken =>
      if is_closed (transactions r) then Some (panic w)
      else Some (upd w r (PAwait tran tmpRes)
                   [OSend (NewTransaction (Payload tran) tmpRes)]
                   [Incr "input.read_until.final.propagated" 1])
  | PSendFinal _ _, CloseSignal => on_close w
  | PAwait tran tmpRes, Res res =>
      let streamEnds :=
        match Error res with None => true | Some _ => false end in
      Some (upd w r (PRelay tran res streamEnds) [ORes tmpRes res] [])
  | PAwait _ _, CloseSignal => on_close w
  | PRelay tran res streamEnds, Taken =>
      if streamEnds then
        Some (upd w r PDefer [ORelay (ResponseChan tran) res]
                [Incr "input.read_until.final.response.sent" 1;
                 Incr "input.read_until.final.response.sent" 1])
      else
        Some (upd w r PLoopHead [ORelay (ResponseChan tran) res]
                [Incr "input.read_until.final.response.error" 1;
                 Incr "input.read_until.final.response.sent" 1])
  | PRelay _ _ _, CloseSignal => on_close w
  | PDefer, Tick =>
      match wrapped r with
      | Some p => Some (upd w r PDeferWait [OWrappedCloseAsync p] [])
      | None => Some (goto PDeferCloseTx w)
      end
  | PDeferWait, WrappedClosed err =>
      match wrapped r with
      | None => Some (panic w)
      | Some p =>
          match err with
          | Some _ => Some (upd w r PDeferWait [OWrappedWaitForClose p err] [])
          | None => Some (upd w r PDeferCloseTx [OWrappedWaitForClose p err] [])
          end
      end
  | PDeferCloseTx, Tick =>
      match close (transactions r) with
      | None => Some (panic w)
      | Some c =>
          Some (upd w (set_transactions c r) PDeferCloseClosed
                  [OCloseTransactions] [Decr "input.read_until.running" 1])
      end
  | PDeferCloseClosed, Tick =>
      match close (closedChan r) with
      | None => Some (panic w)
      | Some c =>
          Some (upd w (set_closedChan c r) PDone [OCloseClosedChan] [])
      end
  | _, _ => None
  end.

(** One step of the whole system: the worker moves, or some caller of
    [CloseAsync] executes its compare-and-swap, or a caller whose swap
    succeeded executes [close(r.closeChan)]. *)
Inductive Event : Type :=
| Worker (e : WorkerEv)
| CloseAsyncSwap
| CloseAsyncClose.

Definition step (e : Event) (w : World) : option World :=
  if panicked w then None else
  match e with
  | Worker e' => loop_step e' w
  | CloseAsyncSwap =>
      let (v, swapped) := CompareAndSwapInt32 (running (ru w)) 1 0 in
      if swapped then
        Some {| ru := set_running v (ru w); pc := pc w;
                trace := OSwap :: trace w; stats := stats w; logs := logs w;
                closers := S (closers w); panicked := panicked w |}
      else Some w
  | CloseAsyncClose =>
      match closers w with
      | O => None
      | S n =>
          match close (closeChan (ru w)) with
          | None => Some (panic w)
          | Some c =>
              Some {| ru := set_closeChan c (ru w); pc := pc w;
                      trace := OCloseCloseChan :: trace w; stats := stats w;
                      logs := logs w; closers := n; panicked := panicked w |}
          end
      end
  end.

Fixpoint run (evs : list Event) (w : World) : option World :=
  match evs with
  | [] => Some w
  | e :: evs' =>
      match step e w with
      | Some w' => run evs' w'
      | None => None
      end
  end.

(* ------------------------------------------------------------------ *)
(** ** Reading a trace *)

Definition is_swap (o : Obs) : bool :=
  match o with OSwap => true | _ => false end.
Definition is_close_closeChan (o : Obs) : bool :=
  match o with OCloseCloseChan => true | _ => false end.
Definition is_close_transactions (o : Obs) : bool :=
  match o with OCloseTransactions => true | _ => false end.
Definition is_close_closedChan (o : Obs) : bool :=
  match o with OCloseClosedChan => true | _ => false end.
Definition is_new (o : Obs) : bool :=
  match o with ONew _ _ => true | _ => false end.
Definition is_res (o : Obs) : bool :=
  match o with ORes _ _ => true | _ => false end.

Definition count (f : Obs -> bool) (tr : list Obs) : nat :=
  List.length (filter f tr).

(** Transactions taken from [r.transactions], oldest first. *)
Fixpoint sent (tr : list Obs) : list Transaction :=
  match tr with
  | [] => []
  | OSend t :: tr' => sent tr' ++ [t]
  | _ :: tr' => sent tr'
  end.

(** Transactions read from a wrapped producer, oldest first. *)
Fixpoint received (tr : list Obs) : list Transaction :=
  match tr with
  | [] => []
  | ORecv _ t :: tr' => received tr' ++ [t]
  | _ :: tr' => received tr'
  end.

(** Responses handed to upstream acknowledgement channels, oldest first. *)
Fixpoint relayed (tr : list Obs) : list (RespChan * Response) :=
  match tr with
  | [] => []
  | ORelay c res :: tr' => relayed tr' ++ [(c, res)]
  | _ :: tr' => relayed tr'
  end.

(** The response channels an observation mentions. *)
Definition chans (o : Obs) : list RespChan :=
  match o with
  | ORecv _ t => [ResponseChan t]
  | OMake c => [c]
  | OSend t => [ResponseChan t]
  | ORes c _ => [c]
  | ORelay c _ => [c]
  | _ => []
  end.

Definition mentioned (tr : list Obs) : list RespChan := flat_map chans tr.

(** [c] was made upstream, or is one of the first [n] channels of [loop]. *)
Definition chan_lt (n : nat) (c : RespChan) : Prop :=
  match c with
  | Upstream _ => True
  | Intercept k => (k < n)%nat
  end.

(** Every [close(r.closedChan)] of a trace has a [close(r.transactions)]
    further back in time. *)
Fixpoint confirm_after_close (tr : list Obs) : bool :=
  match tr with
  | [] => true
  | OCloseClosedChan :: tr' =>
      existsb is_close_transactions tr' && confirm_after_close tr'
  | _ :: tr' => confirm_after_close tr'
  end.

(** The worker has left [runLoop] and is in (or past) the deferred
    function. *)
Definition in_cleanup (p : PC) : bool :=
  match p with
  | PDefer | PDeferWait | PDeferCloseTx | PDeferCloseClosed | PDone => true
  | _ => false
  end.

(* ------------------------------------------------------------------ *)
(** ** Invariants of the reachable worlds *)

(** What the program counter tells about the fields and the trace. *)
Definition pc_facts (w : World) : Prop :=
  let r := ru w in
  let n := made (trace w) in
  match pc w with
  | PRecv | PDeferWait => wrapped r <> None
  | PRestart => wrapped r = None
  | PSend tran => chan_lt 0 (ResponseChan tran)
  | PSendFinal tran tmpRes | PAwait tran tmpRes =>
      chan_lt 0 (ResponseChan tran) /\ chan_lt n tmpRes
  | PRelay tran res streamEnds =>
      chan_lt 0 (ResponseChan tran) /\
      streamEnds = match Error res with None => true | Some _ => false end
  | _ => True
  end.

(** The two output-side channels are closed by the deferred function only,
    [r.transactions] first. *)
Definition out_facts (w : World) : Prop :=
  let r := ru w in
  let ct := count is_close_transactions (trace w) in
  let cc := count is_close_closedChan (trace w) in
  match pc w with
  | PDeferCloseClosed =>
      transactions r = Closed /\ closedChan r = Open /\ ct = 1%nat /\ cc = 0%nat
  | PDone =>
      transactions r = Closed /\ closedChan r = Closed /\ ct = 1%nat /\ cc = 1%nat
  | _ =>
      transactions r = Open /\ closedChan r = Open /\ ct = 0%nat /\ cc = 0%nat
  end.

(** The running flag, the callers in flight and the close signal. *)
Definition flag_facts (w : World) : Prop :=
  let r := ru w in
  let sw := count is_swap (trace w) in
  let cl := count is_close_closeChan (trace w) in
  (running r = 1 /\ closers w = 0%nat /\ closeChan r = Open /\
   sw = 0%nat /\ cl = 0%nat) \/
  (running r = 0 /\ closers w = 1%nat /\ closeChan r = Open /\
   sw = 1%nat /\ cl = 0%nat) \/
  (running r = 0 /\ closers w = 0%nat /\ closeChan r = Closed /\
   sw = 1%nat /\ cl = 1%nat).

Record Inv (w : World) : Prop := {
  inv_panic : panicked w = false;
  inv_input : Input (conf (ru w)) <> None;
  inv_pc : pc_facts w;
  inv_out : out_facts w;
  inv_flag : flag_facts w;
  inv_order : confirm_after_close (trace w) = true;
  inv_chans : Forall (chan_lt (made (trace w))) (mentioned (trace w));
  inv_asked : asked (trace w) = map Payload (received (trace w))
}.

(** Two worlds with the same traffic: nothing was read, checked, sent,
    relayed or constructed between them. *)
Definition same_traffic (w w' : World) : Prop :=
  received (trace w') = received (trace w) /\
  asked (trace w') = asked (trace w) /\
  sent (trace w') = sent (trace w) /\
  relayed (trace w') = relayed (trace w) /\
  made (trace w') = made (trace w) /\
  count is_res (trace w') = count is_res (trace w) /\
  count is_new (trace w') = count is_new (trace w).

(* ------------------------------------------------------------------ *)
(** ** Schedules *)

(** The condition rejects every message of [ms], asked in this order after
    having been asked about [hist]. *)
Fixpoint all_rejected (c : CondT) (hist : list Message) (ms : list Message)
  : bool :=
  match ms with
  | [] => true
  | m :: ms' => negb (Check c hist m) && all_rejected c (hist ++ [m]) ms'
  end.

(** The transactions a producer builds from payloads and the indices of its
    acknowledgement channels. *)
Definition upstream (ms : list (Message * nat)) : list Transaction :=
  map (fun mn => NewTransaction (fst mn) (Upstream (snd mn))) ms.

(** One pass of [runLoop] for a message the condition rejects: the guard,
    the receive, the send. *)
Definition forward_one (mn : Message * nat) : list Event :=
  [Worker Tick; Worker (Recv (fst mn) (snd mn)); Worker Taken].

Definition forward_all (ms : list (Message * nat)) : list Event :=
  flat_map forward_one ms.

(** One pass for a message the condition accepts and downstream answers
    with [res]: the guard, the receive, the send of the intercepted
    transaction, the response, its relay. *)
Definition intercept_one (mn : Message * nat) (res : Response) : list Event :=
  [Worker Tick; Worker (Recv (fst mn) (snd mn)); Worker Taken;
   Worker (Res res); Worker Taken].

(** The deferred function when the wrapped producer confirms its close at
    the first wait, and when there is no producer left to close. *)
Definition cleanup_with_producer : list Event :=
  [Worker Tick; Worker (WrappedClosed None); Worker Tick; Worker Tick].

Definition cleanup_without_producer : list Event :=
  [Worker Tick; Worker Tick; Worker Tick].

(** What the passes for rejected messages leave in the trace (newest
    first): per message the receive, the check and the send. *)
Fixpoint forward_obs (p : Producer) (ms : list (Message * nat)) : list Obs :=
  match ms with
  | [] => []
  | mn :: ms' =>
      let t := NewTransaction (fst mn) (Upstream (snd mn)) in
      (forward_obs p ms' ++ [OSend t; OCheck (fst mn) false; ORecv p t])%list
  end.

(** What a test sees of a world: the payloads it received from the
    decorator, the state of the output channel, and what [WaitForClose]
    returns before its deadline. *)
Definition seen (w : World) :=
  (map Payload (sent (trace w)), TransactionChan (ru w),
   option_map snd (WaitForClose (ru w) false false)).

(* ------------------------------------------------------------------ *)
(** ** The configurations of the tests *)

Module Fixture.
Definition default_condition : CondConfig :=
  {| cType := "content";
     Content := {| Operator := "equals_cs"; Arg := "" |};
     Static := true |}.

Definition inconf : Config :=
  mkConfig "file"
    {| Path := "/tmp/benthos_read_until_test"; Multipart := false |}
    (NewReadUntilConfig default_condition).

Definition cond_equals (arg : string) : CondConfig :=
  {| cType := "content";
     Content := {| Operator := "equals"; Arg := arg |};
     Static := true |}.

Definition cond_static (b : bool) : CondConfig :=
  {| cType := "static";
     Content := {| Operator := "equals_cs"; Arg := "" |};
     Static := b |}.

Definition rConf (restart : bool) (c : CondConfig) : Config :=
  mkConfig "read_until" {| Path := ""; Multipart := false |}
    (mkReadUntilConfig (Some inconf) restart c).

(** An input constructor that knows the [file] type only. *)
Definition New (c : Config) : Producer + string :=
  if String.eqb (Type_ c) "file" then inl 0%nat
  else inr "invalid input type".

(** The two condition types of the tests: [content] with operator
    [equals] looks at the first part, [static] answers its setting. *)
Definition equals (arg : string) : CondT :=
  {| check_fn := fun _ m =>
       match m with
       | part :: _ => String.eqb part arg
       | [] => false
       end |}.

Definition static (b : bool) : CondT := {| check_fn := fun _ _ => b |}.

Definition condition_New (c : CondConfig) : CondT + string :=
  if String.eqb (cType c) "content" then inl (equals (Arg (Content c)))
  else if String.eqb (cType c) "static" then inl (static (Static c))
  else inr "invalid condition type".

(** Encoders and decoders that keep the type names only. *)
Definition encode_Config (c : Config) : Value :=
  VObject [("type", VString (Type_ c))].

Definition encode_Condition (c : CondConfig) : Value :=
  VObject [("type", VString (cType c))].

Definition decode_Config (v : Value) (into : option Config) : option Config :=
  match lookup "type" v with
  | Some (VString t) =>
      Some (mkConfig t {| Path := ""; Multipart := false |}
              (NewReadUntilConfig default_condition))
  | _ => into
  end.

Definition decode_Condition (v : Value) (into : CondConfig) : CondConfig :=
  match lookup "type" v with
  | Some (VString t) =>
      {| cType := t; Content := Content into; Static := Static into |}
  | _ => into
  end.

Definition ok : Response := SimpleResponse None.
Definition failed : Response := SimpleResponse (Some "failed").

(** The messages of the test file. *)
Definition foo_bar_baz : list (Message * nat) :=
  [(["foo"], 0%nat); (["bar"], 1%nat); (["baz"], 2%nat)].

(** The decorator [NewReadUntil] returns for a test configuration. *)
Definition decorator (restart : bool) (c : CondConfig) (cnd : CondT)
  : ReadUntil :=
  {| running := 1;
     conf := cReadUntil (rConf restart c);
     wrapped := Some 0%nat;
     cond := cnd;
     transactions := Open;
     closeChan := Open;
     closedChan := Open |}.

(** The restarting decorator of [testReadUntilInputCloseRestart]. *)
Definition restarting : ReadUntil :=
  decorator true (cond_static false) (static false).

(** The world once the worker has entered [runLoop] and waits for the
    first transaction of its producer. *)
Definition waiting (r : ReadUntil) : World :=
  {| ru := r; pc := PRecv; trace := [];
     stats := [Incr "input.read_until.running" 1]; logs := [];
     closers := 0%nat; panicked := false |}.
End Fixture.

(* ------------------------------------------------------------------ *)
(** ** The output as a function of the input *)

(** Responses read from intercept channels, oldest first. *)
Fixpoint answers (tr : list Obs) : list Response :=
  match tr with
  | [] => []
  | ORes _ res :: tr' => answers tr' ++ [res]
  | _ :: tr' => answers tr'
  end.

(** What [loop] offers downstream for a transaction [t] read from the
    producer, the condition having been asked about [hist] before and [k]
    intercept channels having been made: [t] itself when the condition
    rejects its payload, the payload with the [k]-th intercept channel when
    it accepts. *)
Definition out_of (c : CondT) (hist : list Message) (k : nat)
    (t : Transaction) : Transaction :=
  if Check c hist (Payload t) then NewTransaction (Payload t) (Intercept k)
  else t.

Fixpoint expected (c : CondT) (hist : list Message) (k : nat)
    (ts : list Transaction) : list Transaction :=
  match ts with
  | [] => []
  | t :: ts' =>
      out_of c hist k t
        :: expected c (hist ++ [Payload t])
             (if Check c hist (Payload t) then S k else k) ts'
  end.

(** The transactions of [ts] whose payload the condition accepts. *)
Fixpoint accepted (c : CondT) (hist : list Message) (ts : list Transaction)
  : list Transaction :=
  match ts with
  | [] => []
  | t :: ts' =>
      ((if Check c hist (Payload t) then [t] else [])
         ++ accepted c (hist ++ [Payload t]) ts')%list
  end.

(** The relays that are due: the i-th response read from an intercept
    channel goes to the acknowledgement channel of the i-th accepted
    transaction. *)
Definition due (c : CondT) (ts : list Transaction) (ans : list Response)
  : list (RespChan * Response) :=
  combine (map ResponseChan (accepted c [] ts)) ans.

(** The channels the responses were read from, oldest first. *)
Fixpoint answered (tr : list Obs) : list RespChan :=
  match tr with
  | [] => []
  | ORes c _ :: tr' => answered tr' ++ [c]
  | _ :: tr' => answered tr'
  end.

(** The numbers of the intercept channels among the acknowledgement
    channels of [ts]. *)
Fixpoint intercept_ids (ts : list Transaction) : list nat :=
  match ts with
  | [] => []
  | t :: ts' =>
      match ResponseChan t with
      | Intercept n => n :: intercept_ids ts'
      | Upstream _ => intercept_ids ts'
      end
  end.

(** The worker offers a transaction downstream. *)
Definition offering (p : PC) : bool :=
  match p with
  | PSend _ | PSendFinal _ _ => true
  | _ => false
  end.

(** How far the sends and the relays are behind what was read, by place. *)
Definition flow_facts (w : World) : Prop :=
  let c := cond (ru w) in
  let tr := trace w in
  let acc := accepted c [] (received tr) in
  exists pendS pendR,
    expected c [] 0 (received tr) = (sent tr ++ pendS)%list /\
    due c (received tr) (answers tr) = (relayed tr ++ pendR)%list /\
    made tr = List.length acc /\
    Forall (fun t => chan_lt 0 (ResponseChan t)) (received tr) /\
    answered tr = map Intercept (seq 0 (List.length (answers tr))) /\
    (List.length (answers tr) <= List.length (intercept_ids (sent tr)))%nat /\
    match pc w with
    | PStart | PLoopHead | PRestart | PRecv =>
        pendS = [] /\ pendR = [] /\
        List.length (answers tr) = List.length acc
    | PSend tran =>
        pendS = [tran] /\ pendR = [] /\
        List.length (answers tr) = List.length acc
    | PSendFinal tran tmpRes =>
        pendS = [NewTransaction (Payload tran) tmpRes] /\ pendR = [] /\
        exists acc0,
          acc = (acc0 ++ [tran])%list /\
          List.length (answers tr) = List.length acc0 /\
          tmpRes = Intercept (List.length acc0)
    | PAwait tran tmpRes =>
        pendS = [] /\ pendR = [] /\
        exists acc0,
          acc = (acc0 ++ [tran])%list /\
          List.length (answers tr) = List.length acc0 /\
          tmpRes = Intercept (List.length acc0)
    | PRelay tran res _ =>
        pendS = [] /\ pendR = [(ResponseChan tran, res)] /\
        List.length (answers tr) = List.length acc
    | _ => (List.length pendS <= 1)%nat /\ (List.length pendR <= 1)%nat
    end.

(* ------------------------------------------------------------------ *)
(** ** The life of the wrapped producers *)

(** What a history says about the wrapped producer: which one is current
    (if any), or that the current one has been asked to close, or that it
    has confirmed its close. *)
Inductive Life : Type :=
| Current (p : option Producer)
| Asked (p : Producer)
| Confirmed.

Definition is_current (l : Life) (p : Producer) : bool :=
  match l with
  | Current (Some q) => Nat.eqb q p
  | _ => false
  end.

(** Reads a history, oldest observation first.  Transactions and the
    closing of the channel come from the current producer; [New] is called
    only when there is none; [CloseAsync] goes to the current producer,
    once, and the waits that follow go to the same one, until it confirms.
    [None]: the history breaks one of these rules. *)
Fixpoint lifecycle (l : Life) (h : list Obs) : option Life :=
  match h with
  | [] => Some l
  | o :: h' =>
      match o with
      | ORecv p _ => if is_current l p then lifecycle l h' else None
      | ORecvClosed p =>
          if is_current l p then lifecycle (Current None) h' else None
      | ONew _ res =>
          match l with
          | Current None =>
              lifecycle
                (Current (match res with inl q => Some q | inr _ => None end))
                h'
          | _ => None
          end
      | OWrappedCloseAsync p =>
          if is_current l p then lifecycle (Asked p) h' else None
      | OWrappedWaitForClose p err =>
          match l with
          | Asked q =>
              if Nat.eqb q p then
                lifecycle (match err with Some _ => Asked q | None => Confirmed end)
                  h'
              else None
          | _ => None
          end
      | _ => lifecycle l h'
      end
  end.

(** Where the fields and the place of the worker say the producer is. *)
Definition life_of (w : World) : Life :=
  match pc w with
  | PDeferWait =>
      match wrapped (ru w) with
      | Some p => Asked p
      | None => Current None
      end
  | PDeferCloseTx | PDeferCloseClosed | PDone =>
      match wrapped (ru w) with
      | Some _ => Confirmed
      | None => Current None
      end
  | _ => Current (wrapped (ru w))
  end.

(** Every call of [New] in the trace was made on the configuration [c]. *)
Definition new_on (c : option Config) (tr : list Obs) : Prop :=
  Forall (fun o => match o with
                   | ONew c' _ => c = Some c'
                   | _ => True
                   end) tr.

Definition is_recv_closed (o : Obs) : bool :=
  match o with ORecvClosed _ => true | _ => false end.

(** A producer is made only for a channel seen closed. *)
Definition restart_facts (w : World) : Prop :=
  (count is_new (trace w) <= count is_recv_closed (trace w))%nat /\
  (in_cleanup (pc w) = false -> wrapped (ru w) = None ->
   (count is_new (trace w) < count is_recv_closed (trace w))%nat).

(* ------------------------------------------------------------------ *)
(** ** Shutdown *)

(** What the worker can still do, from a place of [loop], once the
    running flag is cleared: how many transactions it can read, send on,
    how many responses it can relay, how many inputs it can make. *)
Definition reads_left (p : PC) : nat :=
  match p with
  | PRestart | PRecv => 1
  | _ => 0
  end.

Definition sends_left (p : PC) : nat :=
  match p with
  | PRestart | PRecv | PSend _ | PSendFinal _ _ => 1
  | _ => 0
  end.

Definition relays_left (p : PC) : nat :=
  match p with
  | PRestart | PRecv | PSendFinal _ _ | PAwait _ _ | PRelay _ _ _ => 1
  | _ => 0
  end.

Definition news_left (p : PC) : nat :=
  match p with
  | PRestart => 1
  | _ => 0
  end.

(** The deferred function, by whether there is a producer to close. *)
Definition cleanup_for (p : option Producer) : list Event :=
  match p with
  | Some _ => cleanup_with_producer
  | None => cleanup_without_producer
  end.

(** A shortest way to the end once [r.closeChan] is closed: the worker
    takes the close signal at the select it stands at (or fails the guard),
    and the producer confirms its close at the first wait.  [res] is what a
    call of [New] under way returns. *)
Definition drain (w : World) (res : Producer + string) : list Event :=
  match pc w with
  | PStart => Worker Tick :: Worker Tick :: cleanup_for (wrapped (ru w))
  | PLoopHead => Worker Tick :: cleanup_for (wrapped (ru w))
  | PRestart =>
      Worker (NewReturns res)
        :: match res with
           | inl _ => Worker CloseSignal :: cleanup_with_producer
           | inr _ => cleanup_without_producer
           end
  | PRecv | PSend _ | PSendFinal _ _ | PAwait _ _ | PRelay _ _ _ =>
      Worker CloseSignal :: cleanup_for (wrapped (ru w))
  | PDefer => cleanup_for (wrapped (ru w))
  | PDeferWait => [Worker (WrappedClosed None); Worker Tick; Worker Tick]
  | PDeferCloseTx => [Worker Tick; Worker Tick]
  | PDeferCloseClosed => [Worker Tick]
  | PDone => []
  end.

Definition is_worker (e : Event) : bool :=
  match e with Worker _ => true | _ => false end.

(** The waits of the deferred function on a producer that times out. *)
Definition timeouts (errs : list string) : list Event :=
  map (fun e => Worker (WrappedClosed (Some e))) errs.

(** The world after a [CloseAsync] caller has swapped the flag of [w]. *)
Definition after_swap (w : World) : World :=
  {| ru := set_running 0 (ru w); pc := pc w; trace := OSwap :: trace w;
     stats := stats w; logs := logs w; closers := S (closers w);
     panicked := panicked w |}.

(** The world after that caller has closed [r.closeChan] as well. *)
Definition after_close (w : World) : World :=
  {| ru := set_closeChan Closed (set_running 0 (ru w)); pc := pc w;
     trace := OCloseCloseChan :: OSwap :: trace w;
     stats := stats w; logs := logs w; closers := closers w;
     panicked := panicked w |}.

(* ------------------------------------------------------------------ *)
(** * Proofs *)

Unset Implicit Arguments.

Lemma chan_lt_mono (n m : nat) (c : RespChan) :
  (n <= m)%nat -> chan_lt n c -> chan_lt m c.
Proof. destruct c; simpl; intros; [exact I | lia]. Qed.

Lemma Forall_chan_lt_S (n : nat) (l : list RespChan) :
  Forall (chan_lt n) l -> Forall (chan_lt (S n)) l.
Proof.
  intros H; eapply Forall_impl; [| exact H].
  intros c Hc; eapply chan_lt_mono; [| exact Hc]; lia.
Qed.

Lemma existsb_count_pos (f : Obs -> bool) (tr : list Obs) :
  (0 < count f tr)%nat -> existsb f tr = true.
Proof.
  unfold count; induction tr as [| o tr IH]; simpl; [lia |].
  destruct (f o); simpl; auto.
Qed.

(** A world right after construction. *)
Lemma NewReadUntil_inl New cnew cfg r :
  NewReadUntil New cnew cfg = inl r ->
  running r = 1 /\ conf r = cReadUntil cfg /\ Input (conf r) <> None /\
  wrapped r <> None /\ transactions r = Open /\ closeChan r = Open /\
  closedChan r = Open.
Proof.
  unfold NewReadUntil.
  destruct (Input (cReadUntil cfg)) as [child |] eqn:Hin; [| discriminate].
  destruct (New child); [| discriminate].
  destruct (cnew _); [| discriminate].
  intros H; injection H as <-; simpl.
  rewrite Hin; repeat split; congruence.
Qed.

Lemma Inv_spawn New cnew cfg r :
  NewReadUntil New cnew cfg = inl r -> Inv (spawn r).
Proof.
  intros H; apply NewReadUntil_inl in H.
  destruct H as (Hr & _ & Hi & _ & Ht & Hc & Hd).
  constructor; simpl; auto.
  - exact I.
  - red; simpl; auto.
  - red; simpl; left; auto.
Qed.

Ltac break_match_hyp H :=
  repeat match type of H with
         | context [match ?x with _ => _ end] => destruct x eqn:?
         end.

Lemma count_app (f : Obs -> bool) (l1 l2 : list Obs) :
  count f (l1 ++ l2) = (count f l1 + count f l2)%nat.
Proof. unfold count; rewrite filter_app, length_app; reflexivity. Qed.

Ltac split_ands :=
  repeat match goal with
         | H : _ /\ _ |- _ => destruct H
         end.

Ltac use_eqn :=
  repeat match goal with
         | H : ?x = _ |- context [match ?x with _ => _ end] => rewrite H
         end.

Ltac chan_tac :=
  repeat first
    [ assumption
    | exact I
    | apply Forall_cons
    | apply Forall_chan_lt_S
    | progress (simpl; try lia)
    | (eapply chan_lt_mono; [| eassumption]; lia) ].

Lemma Inv_step (e : Event) (w w' : World) :
  Inv w -> step e w = Some w' -> Inv w'.
Proof.
  intros [Hp Hi Hpc Ho Hf Hord Hch Hask] Hs.
  destruct w as [[rn cf wr cd tx cc cdc] p tr st lg cl pk].
  unfold pc_facts, out_facts, flag_facts, step, loop_step, on_close in *.
  simpl in *; subst pk.
  destruct e as [we | |].
  - destruct p; destruct we; try discriminate;
      break_match_hyp Hs; try discriminate; injection Hs as <-.
    all: simpl in *; split_ands; subst; simpl in *; try discriminate.
    all: try congruence.
    all: constructor; unfold pc_facts, out_facts, flag_facts; simpl.
    all: auto.
    all: try congruence.
    all: try (rewrite map_app, Hask; reflexivity).
    all: try solve [chan_tac].
    all: try solve [split; [assumption | use_eqn; reflexivity]].
    all: try solve [unfold count in *; simpl; intuition congruence].
    all: try solve [rewrite Hord, existsb_count_pos; [reflexivity | lia]].
  - simpl in Hs; unfold CompareAndSwapInt32 in Hs.
    destruct (rn =? 1) eqn:E; injection Hs as <-.
    + apply Z.eqb_eq in E; subst rn.
      constructor; unfold pc_facts, out_facts, flag_facts; simpl; auto.
      right; left; unfold count in *; simpl.
      intuition (try congruence; try lia).
    + constructor; unfold pc_facts, out_facts, flag_facts; simpl; auto.
  - simpl in Hs; destruct cl as [| n]; [discriminate |].
    destruct cc; simpl in Hs; injection Hs as <-.
    + constructor; unfold pc_facts, out_facts, flag_facts; simpl; auto.
      right; right; unfold count in *; simpl.
      intuition (try congruence; try lia).
    + exfalso; intuition (try congruence; try lia).
Qed.

Lemma Inv_run (evs : list Event) :
  forall w w', Inv w -> run evs w = Some w' -> Inv w'.
Proof.
  induction evs as [| e evs IH]; simpl; intros w w' Hw Hr.
  - injection Hr as <-; exact Hw.
  - destruct (step e w) as [w1 |] eqn:Hs; [| discriminate].
    eapply IH; [eapply Inv_step; eassumption | exact Hr].
Qed.

Lemma Inv_reachable New cnew cfg r evs w :
  NewReadUntil New cnew cfg = inl r -> run evs (spawn r) = Some w -> Inv w.
Proof.
  intros Hn Hr; eapply Inv_run; [eapply Inv_spawn; exact Hn | exact Hr].
Qed.

Lemma run_app (evs1 evs2 : list Event) :
  forall w, run (evs1 ++ evs2) w =
            match run evs1 w with
            | Some w1 => run evs2 w1
            | None => None
            end.
Proof.
  induction evs1 as [| e evs1 IH]; simpl; intros w; [reflexivity |].
  destruct (step e w); [apply IH | reflexivity].
Qed.

Lemma same_traffic_refl (w : World) : same_traffic w w.
Proof. repeat split. Qed.

Lemma same_traffic_trans (w1 w2 w3 : World) :
  same_traffic w1 w2 -> same_traffic w2 w3 -> same_traffic w1 w3.
Proof. unfold same_traffic; intuition congruence. Qed.

(** Once the worker is in the deferred function it stays there, and adds
    no traffic. *)
Lemma cleanup_step (e : Event) (w w' : World) :
  in_cleanup (pc w) = true -> step e w = Some w' ->
  in_cleanup (pc w') = true /\ same_traffic w w'.
Proof.
  intros Hc Hs.
  destruct w as [[rn cf wr cd tx cc cdc] p tr st lg cl pk].
  unfold same_traffic, step, loop_step, on_close, CompareAndSwapInt32 in *.
  simpl in *.
  destruct pk; [discriminate |].
  destruct e as [we | |].
  - destruct p; try discriminate; destruct we; try discriminate;
      break_match_hyp Hs; try discriminate; injection Hs as <-;
      simpl; repeat split; reflexivity.
  - break_match_hyp Hs; injection Hs as <-; simpl; repeat split; auto.
  - break_match_hyp Hs; try discriminate; injection Hs as <-;
      simpl; repeat split; auto.
Qed.

Lemma cleanup_run (evs : list Event) :
  forall w w', in_cleanup (pc w) = true -> run evs w = Some w' ->
               in_cleanup (pc w') = true /\ same_traffic w w'.
Proof.
  induction evs as [| e evs IH]; simpl; intros w w' Hc Hr.
  - injection Hr as <-; split; [exact Hc | apply same_traffic_refl].
  - destruct (step e w) as [w1 |] eqn:Hs; [| discriminate].
    destruct (cleanup_step _ _ _ Hc Hs) as [Hc1 Ht1].
    destruct (IH _ _ Hc1 Hr) as [Hc' Ht'].
    split; [exact Hc' | eapply same_traffic_trans; eassumption].
Qed.

(** In the deferred function nothing is read from a producer any more. *)
Lemma cleanup_no_recv (w : World) (m : Message) (n : nat) :
  in_cleanup (pc w) = true -> step (Worker (Recv m n)) w = None.
Proof.
  unfold step, loop_step; intros Hc.
  destruct (panicked w); [reflexivity |].
  destruct (pc w); try discriminate; reflexivity.
Qed.

(** A fresh channel: the next [make] returns a channel no observation has
    mentioned. *)
Lemma next_chan_fresh (w : World) :
  Inv w -> ~ In (Intercept (made (trace w))) (mentioned (trace w)).
Proof.
  intros Hw Hin.
  pose proof (inv_chans Hw) as Hall.
  rewrite Forall_forall in Hall.
  specialize (Hall _ Hin); simpl in Hall; lia.
Qed.

(* ------------------------------------------------------------------ *)
(** ** The interception sequence *)

(** C1.  In every reachable world where the worker waits for its producer:
    when the producer hands over a transaction whose payload the condition
    accepts, the worker makes a channel [tmpRes] that nothing has mentioned
    before (and that differs from the transaction's own channel), offers
    downstream the same payload with [tmpRes] as acknowledgement channel,
    and, once downstream has answered on [tmpRes] with a response carrying
    no error, hands that very response to the original acknowledgement
    channel and leaves the loop.  From then on, whatever happens, the
    worker stays in the deferred cleanup, no transaction is read from a
    producer ([Recv] is not enabled, [received] is unchanged), nothing is
    sent downstream and [tmpRes] is not used again; the cleanup ends with
    both output-side channels closed once the producer confirms its close. *)
Theorem C1_accepted_final_response_ends_stream :
  forall New cnew cfg r evs w p m n res,
    NewReadUntil New cnew cfg = inl r ->
    run evs (spawn r) = Some w ->
    pc w = PRecv ->
    wrapped (ru w) = Some p ->
    Check (cond (ru w)) (asked (trace w)) m = true ->
    Error res = None ->
    let tran := NewTransaction m (Upstream n) in
    let tmpRes := Intercept (made (trace w)) in
    exists w',
      run [Worker (Recv m n); Worker Taken; Worker (Res res); Worker Taken] w
        = Some w' /\
      ~ In tmpRes (mentioned (trace w)) /\
      tmpRes <> ResponseChan tran /\
      trace w' = ([ORelay (ResponseChan tran) res; ORes tmpRes res;
                  OSend (NewTransaction m tmpRes); OMake tmpRes;
                  OCheck m true; ORecv p tran] ++ trace w)%list /\
      pc w' = PDefer /\
      (forall evs' w'', run evs' w' = Some w'' ->
         in_cleanup (pc w'') = true /\
         same_traffic w' w'' /\
         forall m' n', step (Worker (Recv m' n')) w'' = None) /\
      exists w_end,
        run cleanup_with_producer w' = Some w_end /\
        pc w_end = PDone /\
        transactions (ru w_end) = Closed /\
        closedChan (ru w_end) = Closed.
Proof.
  intros New cnew cfg r evs w p m n res Hn Hr Hpc Hw Hc He tran tmpRes.
  pose proof (Inv_reachable _ _ _ _ _ _ Hn Hr) as HI.
  pose proof (next_chan_fresh _ HI) as Hfresh.
  destruct HI as [Hp Hi _ Ho _ _ _ _].
  destruct w as [[rn cf wr cd tx cc cdc] pc0 tr st lg cl pk].
  unfold out_facts in Ho; simpl in *; subst pc0 wr pk.
  destruct Ho as (-> & -> & _ & _).
  destruct res as [err]; simpl in He; subst err.
  eexists; split.
  { unfold run, step, loop_step; simpl.
    unfold Check in Hc; simpl in Hc; unfold Check; rewrite Hc; simpl.
    reflexivity. }
  simpl.
  split; [exact Hfresh |].
  split; [discriminate |].
  split; [reflexivity |].
  split; [reflexivity |].
  split.
  - intros evs' w'' Hr'.
    pose proof (fun H => cleanup_run evs' _ _ H Hr') as Hcl.
    destruct (Hcl eq_refl) as [Hc' Ht'].
    split; [exact Hc' |].
    split; [exact Ht' |].
    intros m' n'; apply cleanup_no_recv; exact Hc'.
  - eexists; split; [reflexivity |]; simpl; auto.
Qed.

Lemma C1_witness :
  let r := Fixture.decorator false (Fixture.cond_equals "bar")
             (Fixture.equals "bar") in
  NewReadUntil Fixture.New Fixture.condition_New
    (Fixture.rConf false (Fixture.cond_equals "bar")) = inl r /\
  run [Worker Tick; Worker Tick] (spawn r) = Some (Fixture.waiting r) /\
  exists w',
    run [Worker (Recv ["bar"] 1); Worker Taken; Worker (Res Fixture.ok);
         Worker Taken] (Fixture.waiting r) = Some w' /\
    pc w' = PDefer /\
    sent (trace w') = [NewTransaction ["bar"] (Intercept 0)] /\
    relayed (trace w') = [(Upstream 1, Fixture.ok)].
Proof.
  intros r.
  split; [reflexivity |].
  split; [reflexivity |].
  destruct (C1_accepted_final_response_ends_stream
              Fixture.New Fixture.condition_New
              (Fixture.rConf false (Fixture.cond_equals "bar")) r
              [Worker Tick; Worker Tick] (Fixture.waiting r)
              0%nat ["bar"] 1%nat Fixture.ok
              eq_refl eq_refl eq_refl eq_refl eq_refl eq_refl)
    as (w' & Hrun & _ & _ & Htr & Hpc & _).
  exists w'.
  split; [exact Hrun |].
  split; [exact Hpc |].
  rewrite Htr; split; reflexivity.
Defined.

(** C2.  In every reachable world where the worker waits for its producer:
    when the producer hands over a transaction the condition accepts and
    downstream answers the intercepted transaction with a response that
    carries an error, the worker hands that response to the original
    acknowledgement channel and is back at the guard of [runLoop], not in
    the deferred cleanup: no field of the decorator has changed (the same
    producer is current, no channel is closed), the payload went downstream
    once and is not on offer again.  While the running flag is still 1 (no
    close has been requested) the next step leads to the select on the
    channel of the same producer, where the next transaction read is one
    that this producer hands over. *)
Theorem C2_rejected_final_response_continues :
  forall New cnew cfg r evs w p m n res e,
    NewReadUntil New cnew cfg = inl r ->
    run evs (spawn r) = Some w ->
    pc w = PRecv ->
    wrapped (ru w) = Some p ->
    Check (cond (ru w)) (asked (trace w)) m = true ->
    Error res = Some e ->
    let tran := NewTransaction m (Upstream n) in
    let tmpRes := Intercept (made (trace w)) in
    exists w',
      run [Worker (Recv m n); Worker Taken; Worker (Res res); Worker Taken] w
        = Some w' /\
      trace w' = ([ORelay (ResponseChan tran) res; ORes tmpRes res;
                   OSend (NewTransaction m tmpRes); OMake tmpRes;
                   OCheck m true; ORecv p tran] ++ trace w)%list /\
      pc w' = PLoopHead /\
      ru w' = ru w /\
      transactions (ru w') = Open /\
      closedChan (ru w') = Open /\
      step (Worker Taken) w' = None /\
      (running (ru w) = 1 ->
       exists w'',
         step (Worker Tick) w' = Some w'' /\
         pc w'' = PRecv /\
         ru w'' = ru w /\
         trace w'' = trace w' /\
         step (Worker Taken) w'' = None /\
         forall m2 n2,
         exists w3 obs,
           step (Worker (Recv m2 n2)) w'' = Some w3 /\
           trace w3 = (obs ++ ORecv p (NewTransaction m2 (Upstream n2))
                           :: trace w')%list /\
           sent (trace w3) = sent (trace w')).
Proof.
  intros New cnew cfg r evs w p m n res e Hn Hr Hpc Hw Hc He tran tmpRes.
  pose proof (Inv_reachable _ _ _ _ _ _ Hn Hr) as HI.
  destruct HI as [Hp Hi _ Ho _ _ _ _].
  destruct w as [[rn cf wr cd tx cc cdc] pc0 tr st lg cl pk].
  unfold out_facts in Ho; simpl in *; subst pc0 wr pk.
  destruct Ho as (-> & -> & _ & _).
  destruct res as [err]; simpl in He; subst err.
  eexists; split.
  { unfold run, step, loop_step; simpl.
    unfold Check in Hc; simpl in Hc; unfold Check; rewrite Hc; simpl.
    reflexivity. }
  simpl.
  repeat (split; [reflexivity |]).
  intros ->.
  eexists; split; [reflexivity |]; simpl.
  repeat (split; [reflexivity |]).
  intros m2 n2.
  unfold step, loop_step; simpl.
  destruct (negb _).
  - do 2 eexists; split; [reflexivity |]; simpl; split.
    + instantiate (1 := [_]); reflexivity.
    + reflexivity.
  - do 2 eexists; split; [reflexivity |]; simpl; split.
    + instantiate (1 := [_; _]); reflexivity.
    + reflexivity.
Qed.

Lemma C2_witness :
  let r := Fixture.decorator false (Fixture.cond_equals "bar")
             (Fixture.equals "bar") in
  NewReadUntil Fixture.New Fixture.condition_New
    (Fixture.rConf false (Fixture.cond_equals "bar")) = inl r /\
  run [Worker Tick; Worker Tick] (spawn r) = Some (Fixture.waiting r) /\
  running (ru (Fixture.waiting r)) = 1 /\
  exists w' w'',
    run [Worker (Recv ["bar"] 1); Worker Taken; Worker (Res Fixture.failed);
         Worker Taken] (Fixture.waiting r) = Some w' /\
    pc w' = PLoopHead /\
    relayed (trace w') = [(Upstream 1, Fixture.failed)] /\
    step (Worker Tick) w' = Some w'' /\
    pc w'' = PRecv /\
    wrapped (ru w'') = Some 0%nat.
Proof.
  intros r.
  split; [reflexivity |].
  split; [reflexivity |].
  split; [reflexivity |].
  destruct (C2_rejected_final_response_continues
              Fixture.New Fixture.condition_New
              (Fixture.rConf false (Fixture.cond_equals "bar")) r
              [Worker Tick; Worker Tick] (Fixture.waiting r)
              0%nat ["bar"] 1%nat Fixture.failed "failed"
              eq_refl eq_refl eq_refl eq_refl eq_refl eq_refl)
    as (w' & Hrun & Htr & Hpc & Hru & _ & _ & _ & Hnext).
  destruct (Hnext eq_refl) as (w'' & Hs & Hpc' & Hru' & _).
  exists w', w''.
  split; [exact Hrun |].
  split; [exact Hpc |].
  split; [rewrite Htr; reflexivity |].
  split; [exact Hs |].
  split; [exact Hpc' |].
  rewrite Hru'; reflexivity.
Defined.

(* ------------------------------------------------------------------ *)
(** ** Restart on exhaustion *)

(** The configuration and the condition of a decorator never change. *)
Lemma conf_step (e : Event) (w w' : World) :
  step e w = Some w' ->
  conf (ru w') = conf (ru w) /\ cond (ru w') = cond (ru w).
Proof.
  intros Hs.
  destruct w as [[rn cf wr cd tx cc cdc] p tr st lg cl pk].
  unfold step, loop_step, on_close, CompareAndSwapInt32 in Hs.
  simpl in *.
  destruct pk; [discriminate |].
  destruct e as [we | |].
  - destruct p; destruct we; try discriminate;
      break_match_hyp Hs; try discriminate; injection Hs as <-;
      simpl; split; reflexivity.
  - break_match_hyp Hs; injection Hs as <-; simpl; split; reflexivity.
  - break_match_hyp Hs; try discriminate; injection Hs as <-;
      simpl; split; reflexivity.
Qed.

Lemma conf_run (evs : list Event) :
  forall w w', run evs w = Some w' ->
               conf (ru w') = conf (ru w) /\ cond (ru w') = cond (ru w).
Proof.
  induction evs as [| e evs IH]; simpl; intros w w' Hr.
  - injection Hr as <-; split; reflexivity.
  - destruct (step e w) as [w1 |] eqn:Hs; [| discriminate].
    destruct (conf_step _ _ _ Hs) as [H1 H2].
    destruct (IH _ _ Hr) as [H3 H4].
    split; congruence.
Qed.

(** The guard of [runLoop] once a close has been requested: the loop is
    left, whatever the state of the producer. *)
Lemma loop_guard_after_close_request (w : World) :
  panicked w = false -> pc w = PLoopHead -> running (ru w) <> 1 ->
  step (Worker Tick) w = Some (goto PDefer w).
Proof.
  intros Hp Hpc Hrun.
  unfold step, loop_step; rewrite Hp, Hpc.
  destruct (running (ru w) =? 1) eqn:E; [| reflexivity].
  apply Z.eqb_eq in E; contradiction.
Qed.

(** C3, amended.  In every reachable world where the worker waits for its
    producer, [restart_input] is set and no close has been requested (the
    running flag is 1): when the channel of the producer is seen closed, the worker
    drops the producer and calls [New] once, on the wrapped configuration
    given at construction.  If [New] returns a producer, that one becomes
    current and the worker waits on its channel.  If [New] returns an
    error, the worker leaves the loop for the deferred cleanup: the error
    goes to the log and to the restart.error counter; no further [New] is
    ever called, nothing is sent on the output channel or on an
    acknowledgement channel; with no producer left to close, the cleanup
    closes both output-side channels.  [NewReadUntil], when the input
    constructor fails in the same way on the same configuration, returns
    the error to its caller. *)
Theorem C3_restart_once_and_failure_closes :
  forall New cnew cfg r evs w p,
    NewReadUntil New cnew cfg = inl r ->
    run evs (spawn r) = Some w ->
    pc w = PRecv ->
    wrapped (ru w) = Some p ->
    Restart (conf (ru w)) = true ->
    running (ru w) = 1 ->
    exists c w1,
      Input (cReadUntil cfg) = Some c /\
      Input (conf (ru w)) = Some c /\
      run [Worker RecvClosed; Worker Tick] w = Some w1 /\
      pc w1 = PRestart /\
      wrapped (ru w1) = None /\
      trace w1 = ORecvClosed p :: trace w /\
      (forall q,
       exists w2,
         step (Worker (NewReturns (inl q))) w1 = Some w2 /\
         pc w2 = PRecv /\
         wrapped (ru w2) = Some q /\
         trace w2 = ONew c (inl q) :: trace w1 /\
         count is_new (trace w2) = S (count is_new (trace w))) /\
      (forall err,
       exists w2,
         step (Worker (NewReturns (inr err))) w1 = Some w2 /\
         pc w2 = PDefer /\
         wrapped (ru w2) = None /\
         trace w2 = ONew c (inr err) :: trace w1 /\
         count is_new (trace w2) = S (count is_new (trace w)) /\
         sent (trace w2) = sent (trace w) /\
         relayed (trace w2) = relayed (trace w) /\
         logs w2 = ("Failed to create input '" ++ Type_ c ++ "': " ++ err)
                     :: logs w /\
         stats w2 = Incr "input.read_until.input.restart.error" 1
                      :: stats w1 /\
         (forall evs' w3, run evs' w2 = Some w3 ->
            in_cleanup (pc w3) = true /\ same_traffic w2 w3) /\
         exists w_end,
           run cleanup_without_producer w2 = Some w_end /\
           pc w_end = PDone /\
           transactions (ru w_end) = Closed /\
           closedChan (ru w_end) = Closed /\
           trace w_end = OCloseClosedChan :: OCloseTransactions :: trace w2) /\
      (forall New' cnew' err,
         New' c = inr err ->
         NewReadUntil New' cnew' cfg
         = inr ("failed to create input '" ++ Type_ c ++ "': " ++ err)).
Proof.
  intros New cnew cfg r evs w p Hn Hr Hpc Hw Hre Hrun.
  pose proof (Inv_reachable _ _ _ _ _ _ Hn Hr) as HI.
  destruct (conf_run _ _ _ Hr) as [Hcf _]; simpl in Hcf.
  destruct (NewReadUntil_inl _ _ _ _ Hn) as (_ & Hcr & _).
  rewrite Hcr in Hcf.
  destruct HI as [Hp Hi _ Ho _ _ _ _].
  destruct (Input (conf (ru w))) as [c |] eqn:Hin; [| congruence].
  destruct w as [[rn cf wr cd tx cc cdc] pc0 tr st lg cl pk].
  unfold out_facts in Ho; simpl in *; subst pc0 wr pk rn.
  destruct Ho as (-> & -> & _ & _).
  exists c; eexists.
  split; [congruence |].
  split; [reflexivity |].
  split.
  { unfold run, step, loop_step; simpl; rewrite Hre; reflexivity. }
  simpl.
  repeat (split; [reflexivity |]).
  split; [| split].
  - intros q; unfold step, loop_step; simpl; rewrite Hin.
    eexists; split; [reflexivity |]; simpl.
    repeat (split; [reflexivity |]); reflexivity.
  - intros err; unfold step, loop_step; simpl; rewrite Hin.
    eexists; split; [reflexivity |]; simpl.
    repeat (split; [reflexivity |]).
    split.
    + intros evs' w3 Hr'.
      pose proof (fun H => cleanup_run evs' _ _ H Hr') as Hcl.
      exact (Hcl eq_refl).
    + eexists; split; [reflexivity |]; simpl.
      repeat (split; [reflexivity |]); reflexivity.
  - intros New' cnew' err Herr.
    unfold NewReadUntil.
    rewrite Hcf in Hin; rewrite Hin, Herr; reflexivity.
Qed.

Lemma C3_witness :
  let cfg := Fixture.rConf true (Fixture.cond_static false) in
  let r := Fixture.decorator true (Fixture.cond_static false)
             (Fixture.static false) in
  NewReadUntil Fixture.New Fixture.condition_New cfg = inl r /\
  run [Worker Tick; Worker Tick] (spawn r) = Some (Fixture.waiting r) /\
  Restart (conf (ru (Fixture.waiting r))) = true /\
  running (ru (Fixture.waiting r)) = 1 /\
  exists w1 w2,
    run [Worker RecvClosed; Worker Tick] (Fixture.waiting r) = Some w1 /\
    step (Worker (NewReturns (inr "no such file"))) w1 = Some w2 /\
    pc w2 = PDefer /\
    count is_new (trace w2) = 1%nat /\
    sent (trace w2) = [] /\
    NewReadUntil (fun _ => inr "no such file") Fixture.condition_New cfg
    = inr "failed to create input 'file': no such file".
Proof.
  intros cfg r.
  split; [reflexivity |].
  split; [reflexivity |].
  split; [reflexivity |].
  split; [reflexivity |].
  destruct (C3_restart_once_and_failure_closes
              Fixture.New Fixture.condition_New cfg r
              [Worker Tick; Worker Tick] (Fixture.waiting r) 0%nat
              eq_refl eq_refl eq_refl eq_refl eq_refl eq_refl)
    as (c & w1 & Hc & _ & Hrun & _ & _ & _ & _ & Hfail & Hcons).
  injection Hc as <-.
  destruct (Hfail "no such file")
    as (w2 & Hs & Hpc & _ & _ & Hcount & Hsent & _).
  exists w1, w2.
  split; [exact Hrun |].
  split; [exact Hs |].
  split; [exact Hpc |].
  split; [exact Hcount |].
  split; [exact Hsent |].
  exact (Hcons (fun _ => inr "no such file") Fixture.condition_New
           "no such file" eq_refl).
Defined.

(** C3 as stated, for every closed channel seen with [restart_input] set,
    does not hold: the guard of [runLoop] comes first.  Here a caller of
    [CloseAsync] has swapped the running flag while the worker waited for
    its producer; the worker then sees the producer's channel closed,
    finds the flag at 0 and leaves the loop.  No input is made, then or
    later. *)
Lemma C3_counterexample :
  exists w w1,
    NewReadUntil Fixture.New Fixture.condition_New
      (Fixture.rConf true (Fixture.cond_static false))
    = inl Fixture.restarting /\
    run [Worker Tick; Worker Tick; CloseAsyncSwap] (spawn Fixture.restarting)
    = Some w /\
    pc w = PRecv /\
    wrapped (ru w) = Some 0%nat /\
    Restart (conf (ru w)) = true /\
    run [Worker RecvClosed; Worker Tick] w = Some w1 /\
    pc w1 = PDefer /\
    count is_new (trace w1) = 0%nat /\
    (forall evs w2, run evs w1 = Some w2 ->
       in_cleanup (pc w2) = true /\ count is_new (trace w2) = 0%nat).
Proof.
  do 2 eexists.
  do 8 (split; [reflexivity |]).
  intros evs w2 Hr.
  pose proof (fun H => cleanup_run evs _ _ H Hr) as Hcl.
  destruct (Hcl eq_refl) as (Hc & _ & _ & _ & _ & _ & _ & Hnew).
  split; [exact Hc | exact Hnew].
Qed.

(* ------------------------------------------------------------------ *)
(** ** Forwarding in order *)

Lemma sent_app (a b : list Obs) : sent (a ++ b) = (sent b ++ sent a)%list.
Proof.
  induction a as [| o a IH]; simpl; [now rewrite app_nil_r |].
  destruct o; simpl; rewrite ?IH, ?app_assoc; reflexivity.
Qed.

Lemma received_app (a b : list Obs) :
  received (a ++ b) = (received b ++ received a)%list.
Proof.
  induction a as [| o a IH]; simpl; [now rewrite app_nil_r |].
  destruct o; simpl; rewrite ?IH, ?app_assoc; reflexivity.
Qed.

Lemma asked_app (a b : list Obs) : asked (a ++ b) = (asked b ++ asked a)%list.
Proof.
  induction a as [| o a IH]; simpl; [now rewrite app_nil_r |].
  destruct o; simpl; rewrite ?IH, ?app_assoc; reflexivity.
Qed.

Lemma relayed_app (a b : list Obs) :
  relayed (a ++ b) = (relayed b ++ relayed a)%list.
Proof.
  induction a as [| o a IH]; simpl; [now rewrite app_nil_r |].
  destruct o; simpl; rewrite ?IH, ?app_assoc; reflexivity.
Qed.

Lemma made_app (a b : list Obs) : made (a ++ b) = (made a + made b)%nat.
Proof.
  induction a as [| o a IH]; simpl; [reflexivity |].
  destruct o; simpl; rewrite ?IH; reflexivity.
Qed.

Lemma forward_obs_cons (p : Producer) (mn : Message * nat)
    (ms : list (Message * nat)) :
  forward_obs p (mn :: ms)
  = (forward_obs p ms
       ++ [OSend (NewTransaction (fst mn) (Upstream (snd mn)));
           OCheck (fst mn) false;
           ORecv p (NewTransaction (fst mn) (Upstream (snd mn)))])%list.
Proof. reflexivity. Qed.

Lemma forward_obs_facts (p : Producer) (ms : list (Message * nat)) :
  sent (forward_obs p ms) = upstream ms /\
  received (forward_obs p ms) = upstream ms /\
  asked (forward_obs p ms) = map fst ms /\
  relayed (forward_obs p ms) = [] /\
  made (forward_obs p ms) = 0%nat.
Proof.
  induction ms as [| mn ms (IH1 & IH2 & IH3 & IH4 & IH5)].
  - repeat split.
  - rewrite forward_obs_cons, sent_app, received_app, asked_app, relayed_app,
      made_app, IH1, IH2, IH3, IH4, IH5.
    simpl; repeat split.
Qed.

(** One pass of [runLoop] over a message the condition rejects. *)
Lemma forward_one_run (p : Producer) (m : Message) (n : nat) (w : World) :
  panicked w = false ->
  pc w = PLoopHead ->
  running (ru w) = 1 ->
  wrapped (ru w) = Some p ->
  transactions (ru w) = Open ->
  Check (cond (ru w)) (asked (trace w)) m = false ->
  let t := NewTransaction m (Upstream n) in
  run (forward_one (m, n)) w
  = Some (upd w (ru w) PLoopHead [OSend t; OCheck m false; ORecv p t]
            [Incr "input.read_until.propagated" 1;
             Incr "input.read_until.count" 1]).
Proof.
  intros Hp Hpc Hrun Hw Htx Hm t.
  destruct w as [[rn cf wr cd tx cc cdc] pc0 tr st lg cl pk].
  simpl in *; subst pc0 rn wr tx pk.
  unfold step, loop_step; simpl.
  rewrite Hm; reflexivity.
Qed.

(** Passes of [runLoop] over messages the condition rejects: each is read,
    checked and sent on unchanged, and the worker is back at the guard. *)
Lemma forward_all_run (p : Producer) (ms : list (Message * nat)) :
  forall w,
    panicked w = false ->
    pc w = PLoopHead ->
    running (ru w) = 1 ->
    wrapped (ru w) = Some p ->
    transactions (ru w) = Open ->
    all_rejected (cond (ru w)) (asked (trace w)) (map fst ms) = true ->
    exists w',
      run (forward_all ms) w = Some w' /\
      pc w' = PLoopHead /\
      ru w' = ru w /\
      panicked w' = false /\
      trace w' = (forward_obs p ms ++ trace w)%list.
Proof.
  induction ms as [| [m n] ms IH]; intros w Hp Hpc Hrun Hw Htx Hrej.
  - exists w; repeat split; assumption.
  - simpl in Hrej; apply andb_true_iff in Hrej; destruct Hrej as [Hm Hrest].
    apply negb_true_iff in Hm.
    change (forward_all ((m, n) :: ms))
      with (forward_one (m, n) ++ forward_all ms)%list.
    rewrite run_app, (forward_one_run p m n w Hp Hpc Hrun Hw Htx Hm).
    match goal with
    | |- exists w', run _ ?w1 = _ /\ _ =>
        destruct (IH w1) as (w' & Hr' & Hpc' & Hru' & Hp' & Htr');
          simpl; auto
    end.
    exists w'; split; [exact Hr' |].
    split; [exact Hpc' |].
    split; [exact Hru' |].
    split; [exact Hp' |].
    rewrite Htr'; simpl.
    rewrite <- app_assoc; reflexivity.
Qed.

(** The world in which a freshly constructed decorator stands at the guard
    of [runLoop] for the first time. *)
Lemma spawn_first_tick (r : ReadUntil) :
  step (Worker Tick) (spawn r)
  = Some (upd (spawn r) r PLoopHead [] [Incr "input.read_until.running" 1]).
Proof. reflexivity. Qed.

(** C4.  A decorator constructed with [restart_input] false, whose
    condition rejects every message of a finite sequence that its producer
    hands over before closing its channel: every transaction is read,
    checked and sent on unchanged, in order (so each acknowledgement goes
    from downstream straight to the producer's own channel); when the
    producer's channel is seen closed the worker leaves the loop, closes
    [r.transactions], then [r.closedChan], and [WaitForClose] returns nil.
    The trace holds exactly these observations, and nothing is read or
    sent afterwards. *)
Theorem C4_exhaustion_without_restart :
  forall New cnew cfg r ms,
    NewReadUntil New cnew cfg = inl r ->
    Restart (cReadUntil cfg) = false ->
    all_rejected (cond r) [] (map fst ms) = true ->
    exists p w,
      wrapped r = Some p /\
      run ([Worker Tick] ++ forward_all ms
             ++ [Worker Tick; Worker RecvClosed; Worker Tick]
             ++ cleanup_without_producer)%list (spawn r) = Some w /\
      trace w = ([OCloseClosedChan; OCloseTransactions; ORecvClosed p]
                   ++ forward_obs p ms)%list /\
      received (trace w) = upstream ms /\
      sent (trace w) = upstream ms /\
      pc w = PDone /\
      transactions (ru w) = Closed /\
      closedChan (ru w) = Closed /\
      (forall pick, WaitForClose (ru w) false pick = Some (ru w, None)) /\
      (forall evs w', run evs w = Some w' ->
         in_cleanup (pc w') = true /\ same_traffic w w').
Proof.
  intros New cnew cfg r ms Hn Hre Hrej.
  destruct (NewReadUntil_inl _ _ _ _ Hn)
    as (Hrun & Hcf & _ & Hw & Htx & Hcc & Hcd).
  destruct (wrapped r) as [p |] eqn:Hwr; [| congruence].
  exists p.
  rewrite run_app; simpl run at 2.
  destruct (forward_all_run p ms
              (upd (spawn r) r PLoopHead []
                 [Incr "input.read_until.running" 1]))
    as (w1 & Hr1 & Hpc1 & Hru1 & Hp1 & Htr1); simpl; auto.
  rewrite run_app, Hr1.
  destruct w1 as [[rn cf wr cd tx cc cdc] pc0 tr st lg cl pk].
  simpl in *; subst pc0 tr pk.
  rewrite <- Hru1 in *; simpl in *; subst rn wr tx cdc cf.
  unfold step, loop_step; simpl; rewrite Hre; simpl.
  eexists; split; [reflexivity |].
  split; [reflexivity |]; simpl.
  rewrite app_nil_r.
  destruct (forward_obs_facts p ms) as (Hs & Hrc & _).
  split; [reflexivity |].
  split; [exact Hrc |].
  split; [exact Hs |].
  do 3 (split; [reflexivity |]).
  split; [intros pick; reflexivity |].
  intros evs w' Hr'.
  pose proof (fun H => cleanup_run evs _ _ H Hr') as Hcl.
  exact (Hcl eq_refl).
Qed.

Lemma C4_witness :
  let c := Fixture.cond_equals "this never resolves" in
  let r := Fixture.decorator false c (Fixture.equals "this never resolves") in
  NewReadUntil Fixture.New Fixture.condition_New (Fixture.rConf false c)
  = inl r /\
  all_rejected (cond r) [] (map fst Fixture.foo_bar_baz) = true /\
  exists w,
    run ([Worker Tick] ++ forward_all Fixture.foo_bar_baz
           ++ [Worker Tick; Worker RecvClosed; Worker Tick]
           ++ cleanup_without_producer)%list (spawn r) = Some w /\
    sent (trace w) = upstream Fixture.foo_bar_baz /\
    transactions (ru w) = Closed /\
    WaitForClose (ru w) false false = Some (ru w, None).
Proof.
  intros c r.
  split; [reflexivity |].
  split; [reflexivity |].
  destruct (C4_exhaustion_without_restart
              Fixture.New Fixture.condition_New (Fixture.rConf false c) r
              Fixture.foo_bar_baz eq_refl eq_refl eq_refl)
    as (p & w & _ & Hrun & _ & _ & Hsent & _ & Htx & _ & Hwait & _).
  exists w.
  split; [exact Hrun |].
  split; [exact Hsent |].
  split; [exact Htx |].
  exact (Hwait false).
Defined.

Lemma firstn_through (A : Type) (pre : list A) (x : A) (post : list A) :
  firstn (S (List.length pre)) (pre ++ x :: post) = (pre ++ [x])%list.
Proof.
  induction pre as [| a pre IH]; simpl; [reflexivity |].
  simpl in IH; rewrite IH; reflexivity.
Qed.

Lemma Payload_upstream (ms : list (Message * nat)) :
  map Payload (upstream ms) = map fst ms.
Proof. unfold upstream; rewrite map_map; reflexivity. Qed.

(** C5.  A producer has the messages [pre ++ mk :: post] to hand over; the
    condition rejects those of [pre] and accepts [mk], the k-th, and
    downstream answers it with a response without error.  The decorator
    sends downstream the payloads of the first k messages and no other, in
    the order in which it read them: those of [pre] unchanged, [mk] with
    the intercept channel.  After the response to [mk] has been relayed the
    worker is in the deferred cleanup for good: no message of [post], nor
    any other, is read or sent. *)
Theorem C5_emits_exactly_the_first_k :
  forall New cnew cfg r pre mk post res,
    NewReadUntil New cnew cfg = inl r ->
    all_rejected (cond r) [] (map fst pre) = true ->
    Check (cond r) (map fst pre) (fst mk) = true ->
    Error res = None ->
    exists p w,
      wrapped r = Some p /\
      run ([Worker Tick] ++ forward_all pre ++ intercept_one mk res)%list
          (spawn r) = Some w /\
      received (trace w) = upstream (pre ++ [mk]) /\
      sent (trace w)
      = (upstream pre ++ [NewTransaction (fst mk) (Intercept 0)])%list /\
      map Payload (sent (trace w))
      = firstn (S (List.length pre)) (map fst (pre ++ mk :: post)) /\
      relayed (trace w) = [(Upstream (snd mk), res)] /\
      pc w = PDefer /\
      (forall evs w', run evs w = Some w' ->
         in_cleanup (pc w') = true /\
         same_traffic w w' /\
         forall m n, step (Worker (Recv m n)) w' = None).
Proof.
  intros New cnew cfg r pre [mk nk] post res Hn Hrej Hacc Herr.
  assert (Hk : firstn (S (List.length pre))
                  (map fst (pre ++ (mk, nk) :: post))
                = (map fst pre ++ [mk])%list).
  { rewrite map_app.
    change (map fst ((mk, nk) :: post)) with (mk :: map fst post).
    rewrite <- (length_map fst pre) at 1; apply firstn_through. }
  rewrite Hk; clear Hk.
  destruct (NewReadUntil_inl _ _ _ _ Hn)
    as (Hrun & Hcf & _ & Hw & Htx & Hcc & Hcd).
  destruct (wrapped r) as [p |] eqn:Hwr; [| congruence].
  exists p.
  rewrite run_app; simpl run at 2.
  destruct (forward_all_run p pre
              (upd (spawn r) r PLoopHead []
                 [Incr "input.read_until.running" 1]))
    as (w1 & Hr1 & Hpc1 & Hru1 & Hp1 & Htr1); simpl; auto.
  rewrite run_app, Hr1.
  destruct (forward_obs_facts p pre) as (Hs & Hrc & Hask & Hrel & Hmade).
  destruct w1 as [[rn cf wr cd tx cc cdc] pc0 tr st lg cl pk].
  simpl in *; subst pc0 tr pk.
  rewrite <- Hru1 in *; simpl in *; subst rn wr tx cdc cf.
  destruct res as [err]; simpl in Herr; subst err.
  unfold step, loop_step; simpl.
  rewrite app_nil_r, Hask, Hmade.
  unfold Check in Hacc |- *; simpl in Hacc; rewrite Hacc; simpl.
  eexists; split; [reflexivity |].
  split; [reflexivity |]; simpl.
  rewrite Hrc, Hs, Hrel.
  split; [unfold upstream; rewrite map_app; reflexivity |].
  split; [reflexivity |].
  split; [rewrite map_app, Payload_upstream; reflexivity |].
  split; [reflexivity |].
  split; [reflexivity |].
  intros evs w' Hr'.
  pose proof (fun H => cleanup_run evs _ _ H Hr') as Hcl.
  destruct (Hcl eq_refl) as [Hc' Ht'].
  split; [exact Hc' |].
  split; [exact Ht' |].
  intros m n; apply cleanup_no_recv; exact Hc'.
Qed.

Lemma C5_witness :
  let c := Fixture.cond_equals "bar" in
  let r := Fixture.decorator false c (Fixture.equals "bar") in
  NewReadUntil Fixture.New Fixture.condition_New (Fixture.rConf false c)
  = inl r /\
  all_rejected (cond r) [] [["foo"]] = true /\
  Check (cond r) [["foo"]] ["bar"] = true /\
  exists w,
    run ([Worker Tick] ++ forward_all [(["foo"], 0%nat)]
           ++ intercept_one (["bar"], 1%nat) Fixture.ok)%list
        (spawn r) = Some w /\
    map Payload (sent (trace w)) = [["foo"]; ["bar"]] /\
    pc w = PDefer.
Proof.
  intros c r.
  split; [reflexivity |].
  split; [reflexivity |].
  split; [reflexivity |].
  destruct (C5_emits_exactly_the_first_k
              Fixture.New Fixture.condition_New (Fixture.rConf false c) r
              [(["foo"], 0%nat)] (["bar"], 1%nat) [(["baz"], 2%nat)]
              Fixture.ok eq_refl eq_refl eq_refl eq_refl)
    as (p & w & _ & Hrun & _ & _ & Hpay & _ & Hpc & _).
  exists w.
  split; [exact Hrun |].
  split; [exact Hpay |].
  exact Hpc.
Defined.

(* ------------------------------------------------------------------ *)
(** ** Shutdown *)

(** C6.  In every world a constructed decorator can reach, whatever the
    number of [CloseAsync] calls and however their compare-and-swap and
    their [close(r.closeChan)] interleave with each other and with the
    worker: [r.running] has been swapped from 1 to 0 at most once and is 0
    exactly when that swap has happened; [r.closeChan] has been closed at
    most once, only after the swap, and no close ever hit a closed channel
    (no panic).  A call made while the flag is 1 swaps it and closes the
    channel; a call made once the flag is no longer 1 changes nothing; and
    only a caller whose swap succeeded gets to close. *)
Theorem C6_CloseAsync_takes_effect_once :
  forall New cnew cfg r evs w,
    NewReadUntil New cnew cfg = inl r ->
    run evs (spawn r) = Some w ->
    panicked w = false /\
    (count is_swap (trace w) <= 1)%nat /\
    (count is_close_closeChan (trace w) <= count is_swap (trace w))%nat /\
    (running (ru w) = 1 <-> count is_swap (trace w) = 0%nat) /\
    (running (ru w) = 0 <-> count is_swap (trace w) = 1%nat) /\
    (closeChan (ru w) = Closed <->
     count is_close_closeChan (trace w) = 1%nat) /\
    (running (ru w) = 1 ->
     CloseAsync (ru w) = Some (set_closeChan Closed (set_running 0 (ru w))) /\
     exists w',
       run [CloseAsyncSwap; CloseAsyncClose] w = Some w' /\
       ru w' = set_closeChan Closed (set_running 0 (ru w)) /\
       trace w' = OCloseCloseChan :: OSwap :: trace w) /\
    (running (ru w) <> 1 ->
     CloseAsync (ru w) = Some (ru w) /\
     step CloseAsyncSwap w = Some w) /\
    (closers w = 0%nat -> step CloseAsyncClose w = None) /\
    (forall w1, step CloseAsyncSwap w = Some w1 ->
       running (ru w1) = 0 /\ count is_swap (trace w1) = 1%nat).
Proof.
  intros New cnew cfg r evs w Hn Hr.
  pose proof (Inv_reachable _ _ _ _ _ _ Hn Hr) as HI.
  destruct HI as [Hp _ _ _ Hf _ _ _].
  destruct w as [[rn cf wr cd tx cc cdc] pc0 tr st lg cl pk].
  unfold flag_facts, CloseAsync, CompareAndSwapInt32, step in *.
  simpl in *; subst pk.
  destruct Hf as [(-> & -> & -> & Hs & Hc)
                 | [(-> & -> & -> & Hs & Hc) | (-> & -> & -> & Hs & Hc)]];
    rewrite Hs, Hc; simpl.
  all: split; [reflexivity |].
  all: split; [lia |].
  all: split; [lia |].
  all: split; [split; intros; (lia || congruence) |].
  all: split; [split; intros; (lia || congruence) |].
  all: split; [split; intros; (lia || congruence) |].
  all: split; [intros; try lia |].
  all: try (split; [reflexivity |];
            eexists; split; [reflexivity |]; split; reflexivity).
  all: split; [intros; try lia; split; reflexivity |].
  all: split; [intros; (reflexivity || discriminate) |].
  all: intros w1 H1; injection H1 as <-; simpl; unfold count in *; simpl;
    split; (reflexivity || lia).
Qed.

Lemma C6_witness :
  let c := Fixture.cond_equals "bar" in
  let r := Fixture.decorator false c (Fixture.equals "bar") in
  NewReadUntil Fixture.New Fixture.condition_New (Fixture.rConf false c)
  = inl r /\
  exists w,
    run [Worker Tick; CloseAsyncSwap; CloseAsyncSwap; Worker Tick;
         CloseAsyncClose; CloseAsyncSwap] (spawn r) = Some w /\
    running (ru w) = 0 /\
    closeChan (ru w) = Closed /\
    panicked w = false /\
    count is_swap (trace w) = 1%nat /\
    CloseAsync (ru w) = Some (ru w).
Proof.
  intros c r.
  split; [reflexivity |].
  eexists; split; [reflexivity |].
  destruct (C6_CloseAsync_takes_effect_once
              Fixture.New Fixture.condition_New (Fixture.rConf false c) r
              [Worker Tick; CloseAsyncSwap; CloseAsyncSwap; Worker Tick;
               CloseAsyncClose; CloseAsyncSwap] _ eq_refl eq_refl)
    as (Hp & _ & _ & _ & Hzero & _ & _ & Hlater & _).
  split; [reflexivity |].
  split; [reflexivity |].
  split; [exact Hp |].
  split; [apply Hzero; reflexivity |].
  apply Hlater; discriminate.
Defined.

(** C7.  [WaitForClose] on any receiver, at any time (before or after a
    [CloseAsync]): it returns nil only if [r.closedChan] is closed and
    [ErrTimeout] only if the deadline has elapsed; with the confirmation
    given and the deadline not elapsed it returns nil, with the deadline
    elapsed and no confirmation it returns [ErrTimeout], with neither it
    blocks (when both cases of the select are ready the select takes
    either).  The receiver is returned as it was: no field is written, so
    calling it any number of times changes nothing and its outcome does
    not depend on whether [CloseAsync] has run. *)
Theorem C7_WaitForClose_only_observes :
  forall r elapsed pick,
    (closedChan r = Closed -> elapsed = false ->
     WaitForClose r elapsed pick = Some (r, None)) /\
    (closedChan r = Open -> elapsed = true ->
     WaitForClose r elapsed pick = Some (r, Some ErrTimeout)) /\
    (closedChan r = Open -> elapsed = false ->
     WaitForClose r elapsed pick = None) /\
    (closedChan r = Closed -> elapsed = true ->
     WaitForClose r elapsed pick
     = Some (r, if pick then Some ErrTimeout else None)) /\
    (forall r' err,
       WaitForClose r elapsed pick = Some (r', err) ->
       r' = r /\
       (err = None -> closedChan r = Closed) /\
       (err <> None -> err = Some ErrTimeout /\ elapsed = true)) /\
    (forall r1,
       CloseAsync r = Some r1 ->
       option_map snd (WaitForClose r1 elapsed pick)
       = option_map snd (WaitForClose r elapsed pick)).
Proof.
  intros r elapsed pick.
  unfold WaitForClose, CloseAsync, CompareAndSwapInt32.
  split; [intros -> ->; reflexivity |].
  split; [intros -> ->; reflexivity |].
  split; [intros -> ->; reflexivity |].
  split; [intros -> ->; destruct pick; reflexivity |].
  split.
  - intros r' err H.
    destruct (closedChan r), elapsed, pick; simpl in H;
      try discriminate; injection H as <- <-;
      (split; [reflexivity |]; split; [congruence |]);
      intros Hne; try congruence; split; reflexivity.
  - intros r1; destruct (running r =? 1);
      [destruct (close (closeChan r)); [| discriminate] |];
      intros H; injection H as <-; simpl;
      destruct (closedChan r), elapsed, pick; reflexivity.
Qed.

Lemma C7_witness :
  let r := Fixture.decorator false (Fixture.cond_equals "bar")
             (Fixture.equals "bar") in
  WaitForClose r true false = Some (r, Some ErrTimeout) /\
  WaitForClose (set_closedChan Closed r) false false
  = Some (set_closedChan Closed r, None).
Proof.
  intros r.
  destruct (C7_WaitForClose_only_observes r true false)
    as (_ & Htimeout & _).
  destruct (C7_WaitForClose_only_observes (set_closedChan Closed r)
              false false) as (Hok & _).
  split; [exact (Htimeout eq_refl eq_refl) | exact (Hok eq_refl eq_refl)].
Defined.

(* ------------------------------------------------------------------ *)
(** ** The condition *)

(** The only step that asks the condition is the receive of a transaction
    from the producer, and it asks about the payload just received. *)
Lemma check_only_on_receive (e : Event) (w w' : World) :
  step e w = Some w' ->
  (exists m n,
     e = Worker (Recv m n) /\
     received (trace w')
     = (received (trace w) ++ [NewTransaction m (Upstream n)])%list /\
     asked (trace w') = (asked (trace w) ++ [m])%list) \/
  (received (trace w') = received (trace w) /\
   asked (trace w') = asked (trace w)).
Proof.
  intros Hs.
  destruct w as [[rn cf wr cd tx cc cdc] p tr st lg cl pk].
  unfold step, loop_step, on_close, CompareAndSwapInt32 in Hs.
  simpl in *.
  destruct pk; [discriminate |].
  destruct e as [we | |].
  - destruct p; destruct we; try discriminate;
      break_match_hyp Hs; try discriminate; injection Hs as <-; simpl;
      solve [ right; split; reflexivity
            | left; do 2 eexists; repeat split; reflexivity ].
  - break_match_hyp Hs; injection Hs as <-; right; split; reflexivity.
  - break_match_hyp Hs; try discriminate; injection Hs as <-;
      right; split; reflexivity.
Qed.

(** C8.  In every reachable world the payloads the condition has been
    asked about are, one for one and in the same order, the payloads of the
    transactions read from the wrapped producers: one evaluation per
    transaction read, none besides.  Step by step: a step either reads a
    transaction from the producer and asks the condition about that very
    payload, or it asks nothing; sending the intercepted transaction,
    awaiting and relaying its response ask nothing, so after a rejected
    final response the next evaluation is the one of the next transaction
    read. *)
Theorem C8_condition_checked_once_per_received :
  forall New cnew cfg r evs w,
    NewReadUntil New cnew cfg = inl r ->
    run evs (spawn r) = Some w ->
    asked (trace w) = map Payload (received (trace w)) /\
    List.length (asked (trace w)) = List.length (received (trace w)) /\
    (forall e w',
       step e w = Some w' ->
       (exists m n,
          e = Worker (Recv m n) /\
          received (trace w')
          = (received (trace w) ++ [NewTransaction m (Upstream n)])%list /\
          asked (trace w') = (asked (trace w) ++ [m])%list) \/
       (received (trace w') = received (trace w) /\
        asked (trace w') = asked (trace w))) /\
    (forall tran tmpRes res se w1 w2 w3,
       (pc w = PSendFinal tran tmpRes -> step (Worker Taken) w = Some w1 ->
        asked (trace w1) = asked (trace w)) /\
       (pc w = PAwait tran tmpRes -> step (Worker (Res res)) w = Some w2 ->
        asked (trace w2) = asked (trace w)) /\
       (pc w = PRelay tran res se -> step (Worker Taken) w = Some w3 ->
        asked (trace w3) = asked (trace w))).
Proof.
  intros New cnew cfg r evs w Hn Hr.
  pose proof (Inv_reachable _ _ _ _ _ _ Hn Hr) as HI.
  pose proof (inv_asked HI) as Hask.
  split; [exact Hask |].
  split; [rewrite Hask, length_map; reflexivity |].
  split; [intros e w' Hs; apply check_only_on_receive; exact Hs |].
  intros tran tmpRes res se w1 w2 w3.
  repeat split; intros Hpc Hs;
    destruct (check_only_on_receive _ _ _ Hs)
      as [(m & n & He & _) | [_ H]]; (discriminate || exact H).
Qed.

Lemma C8_witness :
  let c := Fixture.cond_equals "bar" in
  let r := Fixture.decorator false c (Fixture.equals "bar") in
  NewReadUntil Fixture.New Fixture.condition_New (Fixture.rConf false c)
  = inl r /\
  exists w,
    run ([Worker Tick] ++ intercept_one (["bar"], 1%nat) Fixture.failed
           ++ intercept_one (["bar"], 1%nat) Fixture.ok)%list (spawn r)
    = Some w /\
    List.length (sent (trace w)) = 2%nat /\
    asked (trace w) = [["bar"]; ["bar"]] /\
    asked (trace w) = map Payload (received (trace w)).
Proof.
  intros c r.
  split; [reflexivity |].
  eexists; split; [reflexivity |].
  split; [reflexivity |].
  split; [reflexivity |].
  exact (proj1 (C8_condition_checked_once_per_received
                  Fixture.New Fixture.condition_New (Fixture.rConf false c) r
                  ([Worker Tick]
                     ++ intercept_one (["bar"], 1%nat) Fixture.failed
                     ++ intercept_one (["bar"], 1%nat) Fixture.ok)%list
                  _ eq_refl eq_refl)).
Defined.

(* ------------------------------------------------------------------ *)
(** ** Marshalling *)

(** C9.  Marshalling a [ReadUntilConfig], to JSON or to YAML, gives a
    document with the two members [input] and [condition] and no
    [restart_input]; a nil [Input] is printed as the empty object.
    Decoding that document into a freshly made default configuration
    therefore leaves [Restart] false, so a configuration with
    [restart_input] true does not survive the round trip. *)
Theorem C9_marshal_drops_restart_input :
  forall (encode_Config : Config -> Value)
         (encode_Condition : CondConfig -> Value)
         (decode_Config : Value -> option Config -> option Config)
         (decode_Condition : Value -> CondConfig -> CondConfig)
         (condition_NewConfig : CondConfig)
         (r : ReadUntilConfig),
    Restart r = true ->
    let json := MarshalJSON encode_Config encode_Condition r in
    let yaml := encode_dummy encode_Config encode_Condition (MarshalYAML r) in
    let back :=
      Unmarshal decode_Config decode_Condition json
        (NewReadUntilConfig condition_NewConfig) in
    yaml = json /\
    (exists vi vc, json = VObject [("input", vi); ("condition", vc)]) /\
    (Input r = None -> lookup "input" json = Some (VObject [])) /\
    lookup "restart_input" json = None /\
    (forall into,
       Restart (Unmarshal decode_Config decode_Condition json into)
       = Restart into) /\
    Restart back = false /\
    back <> r.
Proof.
  intros encC encD decC decD dflt r Hre json yaml back.
  subst json yaml back.
  unfold MarshalJSON, MarshalYAML, encode_dummy, Unmarshal.
  destruct r as [[c |] re cd]; simpl in *; subst re.
  - split; [reflexivity |].
    split; [do 2 eexists; reflexivity |].
    split; [discriminate |].
    split; [reflexivity |].
    split; [reflexivity |].
    split; [reflexivity |].
    intros H; discriminate H.
  - split; [reflexivity |].
    split; [do 2 eexists; reflexivity |].
    split; [reflexivity |].
    split; [reflexivity |].
    split; [reflexivity |].
    split; [reflexivity |].
    intros H; discriminate H.
Qed.

Lemma C9_witness :
  let r := cReadUntil (Fixture.rConf true (Fixture.cond_static false)) in
  Restart r = true /\
  MarshalJSON Fixture.encode_Config Fixture.encode_Condition r
  = VObject [("input", VObject [("type", VString "file")]);
             ("condition", VObject [("type", VString "static")])] /\
  Restart (Unmarshal Fixture.decode_Config Fixture.decode_Condition
             (MarshalJSON Fixture.encode_Config Fixture.encode_Condition r)
             (NewReadUntilConfig Fixture.default_condition)) = false.
Proof.
  intros r.
  split; [reflexivity |].
  split; [reflexivity |].
  destruct (C9_marshal_drops_restart_input
              Fixture.encode_Config Fixture.encode_Condition
              Fixture.decode_Config Fixture.decode_Condition
              Fixture.default_condition r eq_refl)
    as (_ & _ & _ & _ & _ & Hback & _).
  exact Hback.
Defined.

(* ------------------------------------------------------------------ *)
(** ** Order of the two closes *)

(** C10.  In every reachable world: while the worker is in the loop both
    [r.transactions] and [r.closedChan] are open; [r.closedChan] is closed
    only in a world where [r.transactions] is closed already, and in the
    trace every [close(r.closedChan)] has a [close(r.transactions)] before
    it; each of the two happens at most once.  So whenever [WaitForClose]
    returns nil the output channel is closed. *)
Theorem C10_output_closed_before_confirmation :
  forall New cnew cfg r evs w,
    NewReadUntil New cnew cfg = inl r ->
    run evs (spawn r) = Some w ->
    (in_cleanup (pc w) = false ->
     transactions (ru w) = Open /\ closedChan (ru w) = Open) /\
    (closedChan (ru w) = Closed -> transactions (ru w) = Closed) /\
    confirm_after_close (trace w) = true /\
    (count is_close_closedChan (trace w)
     <= count is_close_transactions (trace w) <= 1)%nat /\
    (forall elapsed pick r',
       WaitForClose (ru w) elapsed pick = Some (r', None) ->
       transactions (ru w) = Closed).
Proof.
  intros New cnew cfg r evs w Hn Hr.
  pose proof (Inv_reachable _ _ _ _ _ _ Hn Hr) as HI.
  destruct HI as [_ _ _ Ho _ Hord _ _].
  unfold out_facts, WaitForClose in *.
  split; [| split; [| split; [exact Hord | split]]].
  - intros Hc; destruct (pc w); try discriminate; intuition.
  - intros Hc; destruct (pc w); intuition congruence.
  - destruct (pc w); lia.
  - intros elapsed pick r' H.
    destruct (closedChan (ru w)) eqn:Hcd; simpl in H.
    + destruct elapsed; discriminate.
    + destruct (pc w); intuition congruence.
Qed.

Lemma C10_witness :
  let c := Fixture.cond_equals "bar" in
  let r := Fixture.decorator false c (Fixture.equals "bar") in
  NewReadUntil Fixture.New Fixture.condition_New (Fixture.rConf false c)
  = inl r /\
  exists w,
    run [Worker Tick; CloseAsyncSwap; Worker Tick; Worker Tick;
         Worker (WrappedClosed (Some "timed out"));
         Worker (WrappedClosed None); Worker Tick] (spawn r) = Some w /\
    pc w = PDeferCloseClosed /\
    transactions (ru w) = Closed /\
    closedChan (ru w) = Open /\
    confirm_after_close (trace w) = true.
Proof.
  intros c r.
  split; [reflexivity |].
  eexists; split; [reflexivity |].
  destruct (C10_output_closed_before_confirmation
              Fixture.New Fixture.condition_New (Fixture.rConf false c) r
              [Worker Tick; CloseAsyncSwap; Worker Tick; Worker Tick;
               Worker (WrappedClosed (Some "timed out"));
               Worker (WrappedClosed None); Worker Tick] _ eq_refl eq_refl)
    as (_ & _ & Hord & _).
  split; [reflexivity |].
  split; [reflexivity |].
  split; [reflexivity |].
  exact Hord.
Defined.


(* ------------------------------------------------------------------ *)
(** ** The scenarios of the test file *)

(** [testReadUntilBasic]: foo, then bar, then the stream closes. *)
Example testReadUntilBasic :
  let r := Fixture.decorator false (Fixture.cond_equals "bar")
             (Fixture.equals "bar") in
  option_map seen
    (run ([Worker Tick] ++ forward_all [(["foo"], 0%nat)]
            ++ intercept_one (["bar"], 1%nat) Fixture.ok
            ++ cleanup_with_producer)%list (spawn r))
  = Some ([["foo"]; ["bar"]], Closed, Some None).
Proof. reflexivity. Qed.

(** [testReadUntilRetry]: each message is refused once by the consumer.
    For foo the refusal goes straight to the producer, which hands foo over
    again; for bar it goes through the decorator, which carries on. *)
Example testReadUntilRetry :
  let r := Fixture.decorator false (Fixture.cond_equals "bar")
             (Fixture.equals "bar") in
  option_map seen
    (run ([Worker Tick]
            ++ forward_all [(["foo"], 0%nat); (["foo"], 0%nat)]
            ++ intercept_one (["bar"], 1%nat) Fixture.failed
            ++ intercept_one (["bar"], 1%nat) Fixture.ok
            ++ cleanup_with_producer)%list (spawn r))
  = Some ([["foo"]; ["foo"]; ["bar"]; ["bar"]], Closed, Some None).
Proof. reflexivity. Qed.

(** [testReadUntilEarlyClose]: [CloseAsync] after the first message. *)
Example testReadUntilEarlyClose :
  let r := Fixture.decorator false (Fixture.cond_equals "bar")
             (Fixture.equals "bar") in
  option_map seen
    (run ([Worker Tick] ++ forward_all [(["foo"], 0%nat)]
            ++ [CloseAsyncSwap; CloseAsyncClose; Worker Tick]
            ++ cleanup_with_producer)%list (spawn r))
  = Some ([["foo"]], Closed, Some None).
Proof. reflexivity. Qed.

(** [testReadUntilInputClose]: the file ends, no restart. *)
Example testReadUntilInputClose :
  let c := Fixture.cond_equals "this never resolves" in
  let r := Fixture.decorator false c (Fixture.equals "this never resolves") in
  option_map seen
    (run ([Worker Tick] ++ forward_all Fixture.foo_bar_baz
            ++ [Worker Tick; Worker RecvClosed; Worker Tick]
            ++ cleanup_without_producer)%list (spawn r))
  = Some ([["foo"]; ["bar"]; ["baz"]], Closed, Some None).
Proof. reflexivity. Qed.

(** [testReadUntilInputCloseRestart]: the file is read three times, the
    input being made anew after each end, then [CloseAsync].  After a
    restart the worker goes straight to the select on the new producer. *)
Example testReadUntilInputCloseRestart :
  let r := Fixture.decorator true (Fixture.cond_static false)
             (Fixture.static false) in
  let again (p : Producer) :=
    ([Worker Tick; Worker RecvClosed; Worker Tick;
      Worker (NewReturns (inl p)); Worker (Recv ["foo"] 0); Worker Taken]
       ++ forward_all [(["bar"], 1%nat); (["baz"], 2%nat)])%list in
  option_map (fun w => (seen w, count is_new (trace w)))
    (run ([Worker Tick] ++ forward_all Fixture.foo_bar_baz
            ++ again 1%nat ++ again 2%nat
            ++ [CloseAsyncSwap; CloseAsyncClose; Worker Tick]
            ++ cleanup_with_producer)%list (spawn r))
  = Some (([["foo"]; ["bar"]; ["baz"]; ["foo"]; ["bar"]; ["baz"];
            ["foo"]; ["bar"]; ["baz"]], Closed, Some None), 2%nat).
Proof. reflexivity. Qed.

(* ------------------------------------------------------------------ *)
(** * Further properties of the code *)

(** ** The output as a function of the input *)

Lemma accepted_snoc (c : CondT) (ts : list Transaction) (t : Transaction) :
  forall hist,
    accepted c hist (ts ++ [t])
    = (accepted c hist ts
         ++ (if Check c (hist ++ map Payload ts) (Payload t) then [t]
             else []))%list.
Proof.
  induction ts as [| t0 ts IH]; intros hist; simpl.
  - rewrite !app_nil_r; reflexivity.
  - rewrite IH, <- !app_assoc; reflexivity.
Qed.

Lemma expected_snoc (c : CondT) (ts : list Transaction) (t : Transaction) :
  forall hist k,
    expected c hist k (ts ++ [t])
    = (expected c hist k ts
         ++ [out_of c (hist ++ map Payload ts)
               (k + List.length (accepted c hist ts)) t])%list.
Proof.
  induction ts as [| t0 ts IH]; intros hist k; simpl.
  - rewrite app_nil_r, Nat.add_0_r; reflexivity.
  - rewrite IH, <- app_assoc; simpl.
    destruct (Check c hist (Payload t0)); simpl;
      rewrite ?Nat.add_succ_r; reflexivity.
Qed.

Lemma combine_snoc_long (A B : Type) (l1 : list A) (l2 : list B) (a : A) :
  List.length l2 = List.length l1 ->
  combine (l1 ++ [a]) l2 = combine l1 l2.
Proof.
  revert l2; induction l1 as [| x l1 IH]; intros [| y l2] H; simpl in *;
    try discriminate; try reflexivity.
  rewrite IH; [reflexivity | lia].
Qed.

Lemma combine_snoc_both (A B : Type) (l1 : list A) (l2 : list B)
    (a : A) (b : B) :
  List.length l2 = List.length l1 ->
  combine (l1 ++ [a]) (l2 ++ [b]) = (combine l1 l2 ++ [(a, b)])%list.
Proof.
  revert l2; induction l1 as [| x l1 IH]; intros [| y l2] H; simpl in *;
    try discriminate; try reflexivity.
  rewrite IH; [reflexivity | lia].
Qed.

Lemma intercept_ids_app (l1 l2 : list Transaction) :
  intercept_ids (l1 ++ l2) = (intercept_ids l1 ++ intercept_ids l2)%list.
Proof.
  induction l1 as [| t l1 IH]; simpl; [reflexivity |].
  destruct (ResponseChan t); rewrite IH; reflexivity.
Qed.

(** Among what is due downstream, the intercept channels are numbered in
    the order of the transactions accepted. *)
Lemma intercept_ids_expected (c : CondT) (ts : list Transaction) :
  forall hist k,
    Forall (fun t => chan_lt 0 (ResponseChan t)) ts ->
    intercept_ids (expected c hist k ts)
    = seq k (List.length (accepted c hist ts)).
Proof.
  induction ts as [| t ts IH]; intros hist k Hup; simpl; [reflexivity |].
  inversion Hup as [| ? ? Ht Hts]; subst.
  unfold out_of; destruct (Check c hist (Payload t)); simpl.
  - rewrite IH by assumption; reflexivity.
  - destruct (ResponseChan t); simpl in Ht; [| lia].
    apply IH; assumption.
Qed.

Lemma flow_spawn (r : ReadUntil) : flow_facts (spawn r).
Proof.
  exists [], []; simpl; repeat split; auto.
Qed.

Ltac split_all :=
  repeat match goal with
         | H : _ /\ _ |- _ => destruct H
         | H : exists _, _ |- _ => destruct H
         end.

Lemma flow_step (e : Event) (w w' : World) :
  Inv w -> flow_facts w -> step e w = Some w' -> flow_facts w'.
Proof.
  intros HI (pendS & pendR & HS & HR & Hm & Hup & Hans & Hle & Hpc) Hs.
  pose proof (inv_asked HI) as Hask.
  pose proof (inv_panic HI) as Hp.
  destruct w as [[rn cf wr cd tx cc cdc] p tr st lg cl pk].
  unfold flow_facts, due, step, loop_step, on_close, CompareAndSwapInt32 in *.
  simpl in *; subst pk.
  destruct e as [we | |].
  - destruct p; destruct we; try discriminate;
      break_match_hyp Hs; try discriminate; injection Hs as <-; simpl.
    all: try solve [exists pendS, pendR; simpl; intuition (subst; simpl; auto)].
    all: split_all; subst; rewrite ?app_nil_r in *.
    (* a transaction is read *)
    all: try (rewrite expected_snoc, accepted_snoc; simpl;
              rewrite <- Hask; unfold out_of, Check in *; simpl;
              match goal with
              | H : negb ?b = _ |- _ =>
                  destruct b eqn:?; simpl in H; try discriminate
              end;
              rewrite ?app_nil_r;
              do 2 eexists; split; [rewrite HS; reflexivity |];
              rewrite ?map_app; simpl;
              rewrite ?combine_snoc_long by (rewrite length_map; assumption);
              split; [rewrite HR; symmetry; apply app_nil_r |];
              rewrite ?length_app; simpl;
              split; [lia |];
              split; [apply Forall_app; split; [assumption |];
                      constructor; [exact I | constructor] |];
              split; [assumption |];
              split; [assumption |];
              split; [rewrite ?Hm; reflexivity |];
              split; [reflexivity |];
              first [assumption
                    | eexists; split; [reflexivity |];
                      split; [assumption | rewrite Hm; reflexivity]]).
    (* a send is taken *)
    all: try solve [exists [], []; rewrite ?app_nil_r; simpl;
                    rewrite ?intercept_ids_app, ?length_app;
                    repeat (split; [first [assumption | reflexivity | lia] |]);
                    first [assumption | reflexivity | lia
                          | eexists; repeat split; eassumption]].
    (* a response is read *)
    all: match goal with
         | Hacc : accepted _ _ _ = (?acc0 ++ [?t])%list,
           Hlen : List.length (answers _) = List.length ?acc0 |- _ =>
             pose proof (intercept_ids_expected cd (received tr) [] 0 Hup)
               as Hids;
             rewrite HS, Hacc in Hids;
             apply (f_equal (@List.length nat)) in Hids;
             rewrite length_seq, length_app in Hids; simpl in Hids;
             exists [], [(ResponseChan t, res)];
             rewrite app_nil_r;
             split; [assumption |];
             split;
             [ rewrite Hacc, map_app in HR |- *; simpl in *;
               rewrite combine_snoc_long in HR
                 by (rewrite length_map; assumption);
               rewrite combine_snoc_both
                 by (rewrite length_map; assumption);
               rewrite HR; reflexivity |];
             split; [assumption |];
             split; [assumption |];
             rewrite !length_app; simpl;
             split;
             [ rewrite Nat.add_1_r, seq_S, map_app, Hans, Hlen; reflexivity |];
             split; [lia |];
             split; [reflexivity |];
             split; [reflexivity |];
             rewrite Hacc, !length_app; simpl; lia
         end.
  - break_match_hyp Hs; injection Hs as <-; simpl;
      exists pendS, pendR; simpl; intuition.
  - break_match_hyp Hs; try discriminate; injection Hs as <-; simpl;
      exists pendS, pendR; simpl; intuition.
Qed.

Lemma flow_run (evs : list Event) :
  forall w w', Inv w -> flow_facts w -> run evs w = Some w' -> flow_facts w'.
Proof.
  induction evs as [| e evs IH]; simpl; intros w w' HI Hf Hr.
  - injection Hr as <-; exact Hf.
  - destruct (step e w) as [w1 |] eqn:Hs; [| discriminate].
    eapply IH; [| | exact Hr].
    + eapply Inv_step; eassumption.
    + eapply flow_step; eassumption.
Qed.

Lemma flow_reachable New cnew cfg r evs w :
  NewReadUntil New cnew cfg = inl r -> run evs (spawn r) = Some w ->
  flow_facts w /\ cond (ru w) = cond r.
Proof.
  intros Hn Hr; split.
  - eapply flow_run; [eapply Inv_spawn; exact Hn | apply flow_spawn | exact Hr].
  - destruct (conf_run _ _ _ Hr) as [_ H]; exact H.
Qed.


Lemma Payload_expected (c : CondT) (ts : list Transaction) :
  forall hist k, map Payload (expected c hist k ts) = map Payload ts.
Proof.
  induction ts as [| t ts IH]; intros hist k; simpl; [reflexivity |].
  rewrite IH; unfold out_of; destruct (Check c hist (Payload t)); reflexivity.
Qed.

Lemma accepted_Forall (P : Transaction -> Prop) (c : CondT)
    (ts : list Transaction) :
  forall hist, Forall P ts -> Forall P (accepted c hist ts).
Proof.
  induction ts as [| t ts IH]; intros hist H; simpl; [constructor |].
  inversion H; subst.
  destruct (Check c hist (Payload t)); simpl; auto.
Qed.

Lemma prefix_of_seq (l1 l2 : list nat) :
  forall k n, (l1 ++ l2)%list = seq k n -> l1 = seq k (List.length l1).
Proof.
  induction l1 as [| x l1 IH]; intros k n H; simpl in *; [reflexivity |].
  destruct n as [| n]; simpl in H; [discriminate |].
  injection H as -> H; f_equal; eapply IH; exact H.
Qed.

Lemma NoDup_map_Intercept (l : list nat) :
  NoDup l -> NoDup (map Intercept l).
Proof.
  induction 1 as [| x l Hx Hl IH]; simpl; constructor; [| exact IH].
  intros Hin; apply in_map_iff in Hin.
  destruct Hin as (y & Hy & Hin); injection Hy as ->; contradiction.
Qed.

Lemma map_snd_combine (A B : Type) (l1 : list A) (l2 : list B) :
  (List.length l2 <= List.length l1)%nat -> map snd (combine l1 l2) = l2.
Proof.
  revert l2; induction l1 as [| a l1 IH]; intros [| b l2] H; simpl in *;
    try reflexivity; try lia.
  rewrite IH; [reflexivity | lia].
Qed.

Lemma Forall_fst_combine (A B : Type) (P : A -> Prop)
    (l1 : list A) (l2 : list B) :
  Forall P l1 -> Forall (fun ab => P (fst ab)) (combine l1 l2).
Proof.
  revert l2; induction l1 as [| a l1 IH]; intros l2 H; simpl;
    [constructor |].
  inversion H; subst.
  destruct l2; constructor; auto.
Qed.

(** The numbers of the intercept channels sent so far, and how many
    transactions were accepted. *)
Lemma intercept_ids_sent (w : World) :
  flow_facts w ->
  intercept_ids (sent (trace w))
  = seq 0 (List.length (intercept_ids (sent (trace w)))) /\
  (List.length (intercept_ids (sent (trace w)))
   <= List.length (accepted (cond (ru w)) [] (received (trace w))))%nat.
Proof.
  intros (pendS & pendR & HS & _ & _ & Hup & _).
  pose proof (intercept_ids_expected (cond (ru w)) (received (trace w)) [] 0
                Hup) as Hids.
  rewrite HS, intercept_ids_app in Hids.
  split; [eapply prefix_of_seq; exact Hids |].
  apply (f_equal (@List.length nat)) in Hids.
  rewrite length_app, length_seq in Hids; lia.
Qed.

(** X1.  In every reachable world the transactions taken from the output
    channel are, in order, what the transactions read from the producers
    call for: the i-th sent is the i-th read, passed on unchanged when the
    condition rejected its payload (asked after the payloads read before
    it), or its payload with the next intercept channel when the condition
    accepted it.  Nothing is sent twice, reordered, merged or altered, also
    across restarts; at most the last transaction read is not sent (still
    on offer, or given up for a shutdown), and none is missing while the
    worker is in the loop and not offering. *)
Theorem sent_follows_received :
  forall New cnew cfg r evs w,
    NewReadUntil New cnew cfg = inl r ->
    run evs (spawn r) = Some w ->
    exists pend,
      expected (cond r) [] 0 (received (trace w))
      = (sent (trace w) ++ pend)%list /\
      map Payload (received (trace w))
      = (map Payload (sent (trace w)) ++ map Payload pend)%list /\
      (List.length pend <= 1)%nat /\
      (in_cleanup (pc w) = false -> offering (pc w) = false -> pend = []).
Proof.
  intros New cnew cfg r evs w Hn Hr.
  destruct (flow_reachable _ _ _ _ _ _ Hn Hr) as [Hf Hc].
  destruct Hf as (pendS & pendR & HS & _ & _ & _ & _ & _ & Hpc).
  rewrite Hc in HS.
  exists pendS.
  split; [exact HS |].
  split.
  { rewrite <- map_app, <- HS, Payload_expected; reflexivity. }
  destruct (pc w); simpl; split_all; subst; simpl;
    split; try lia; intros; try discriminate; reflexivity.
Qed.

Lemma sent_follows_received_witness :
  let c := Fixture.cond_equals "bar" in
  let r := Fixture.decorator false c (Fixture.equals "bar") in
  NewReadUntil Fixture.New Fixture.condition_New (Fixture.rConf false c)
  = inl r /\
  exists w,
    run ([Worker Tick] ++ forward_all [(["foo"], 0%nat)]
           ++ intercept_one (["bar"], 1%nat) Fixture.failed
           ++ [Worker Tick; Worker (Recv ["bar"] 1)])%list (spawn r)
    = Some w /\
    exists pend,
      expected (cond r) [] 0 (received (trace w))
      = (sent (trace w) ++ pend)%list /\
      (List.length pend <= 1)%nat.
Proof.
  intros c r.
  split; [reflexivity |].
  eexists; split; [reflexivity |].
  destruct (sent_follows_received
              Fixture.New Fixture.condition_New (Fixture.rConf false c) r
              ([Worker Tick] ++ forward_all [(["foo"], 0%nat)]
                 ++ intercept_one (["bar"], 1%nat) Fixture.failed
                 ++ [Worker Tick; Worker (Recv ["bar"] 1)])%list
              _ eq_refl eq_refl)
    as (pend & H1 & _ & H2 & _).
  exists pend; split; assumption.
Defined.

(** X2.  In every reachable world the responses handed to upstream
    acknowledgement channels are, in order, the responses read from the
    intercept channels, unchanged, the i-th going to the acknowledgement
    channel of the i-th transaction the condition accepted.  The worker
    writes to no other channel of a transaction: never to an intercept
    channel, never for a transaction it passed on unchanged.  At most the
    last response read is not relayed (or not yet). *)
Theorem relayed_follows_answers :
  forall New cnew cfg r evs w,
    NewReadUntil New cnew cfg = inl r ->
    run evs (spawn r) = Some w ->
    exists pend,
      due (cond r) (received (trace w)) (answers (trace w))
      = (relayed (trace w) ++ pend)%list /\
      answers (trace w)
      = (map snd (relayed (trace w)) ++ map snd pend)%list /\
      (List.length pend <= 1)%nat /\
      Forall (fun cr => chan_lt 0 (fst cr)) (relayed (trace w)) /\
      (List.length (relayed (trace w))
       <= List.length (accepted (cond r) [] (received (trace w))))%nat.
Proof.
  intros New cnew cfg r evs w Hn Hr.
  destruct (flow_reachable _ _ _ _ _ _ Hn Hr) as [Hf Hc].
  destruct (intercept_ids_sent _ Hf) as [_ Hle2].
  destruct Hf as (pendS & pendR & _ & HR & _ & Hup & _ & Hle & Hpc).
  rewrite Hc in *.
  exists pendR.
  split; [exact HR |].
  assert (Hlen : (List.length (answers (trace w))
                  <= List.length
                       (map ResponseChan
                          (accepted (cond r) [] (received (trace w)))))%nat)
    by (rewrite length_map; lia).
  split.
  { rewrite <- map_app, <- HR; unfold due.
    symmetry; apply map_snd_combine; exact Hlen. }
  split.
  { destruct (pc w); simpl in Hpc; split_all; subst; simpl; lia. }
  assert (Hall : Forall (fun cr => chan_lt 0 (fst cr))
                   (relayed (trace w) ++ pendR)).
  { rewrite <- HR; unfold due.
    apply (Forall_fst_combine _ _ (chan_lt 0)).
    apply Forall_map, accepted_Forall; exact Hup. }
  split; [apply Forall_app in Hall; apply Hall |].
  apply (f_equal (@List.length _)) in HR.
  unfold due in HR; rewrite length_combine, length_app, length_map in HR.
  lia.
Qed.

Lemma relayed_follows_answers_witness :
  let c := Fixture.cond_equals "bar" in
  let r := Fixture.decorator false c (Fixture.equals "bar") in
  NewReadUntil Fixture.New Fixture.condition_New (Fixture.rConf false c)
  = inl r /\
  exists w,
    run ([Worker Tick] ++ intercept_one (["bar"], 1%nat) Fixture.failed
           ++ intercept_one (["bar"], 2%nat) Fixture.ok)%list (spawn r)
    = Some w /\
    relayed (trace w) = [(Upstream 1, Fixture.failed); (Upstream 2, Fixture.ok)] /\
    answers (trace w) = map snd (relayed (trace w)).
Proof.
  intros c r.
  split; [reflexivity |].
  eexists; split; [reflexivity |].
  split; [reflexivity |].
  destruct (relayed_follows_answers
              Fixture.New Fixture.condition_New (Fixture.rConf false c) r
              ([Worker Tick] ++ intercept_one (["bar"], 1%nat) Fixture.failed
                 ++ intercept_one (["bar"], 2%nat) Fixture.ok)%list
              _ eq_refl eq_refl)
    as (pend & _ & _ & _ & _ & _).
  reflexivity.
Defined.

(** X3.  Intercept channels are single-use.  In every reachable world the
    intercept channels that went downstream are the first ones [loop]
    made, each sent once, in the order of their making; the responses were
    read from the first of those, one response per channel, in the same
    order; a channel is read only after it was sent. *)
Theorem intercept_channels_single_use :
  forall New cnew cfg r evs w,
    NewReadUntil New cnew cfg = inl r ->
    run evs (spawn r) = Some w ->
    let ids := intercept_ids (sent (trace w)) in
    ids = seq 0 (List.length ids) /\
    NoDup ids /\
    answered (trace w)
    = map Intercept (seq 0 (List.length (answers (trace w)))) /\
    NoDup (answered (trace w)) /\
    (List.length (answers (trace w)) <= List.length ids)%nat /\
    (List.length ids <= made (trace w))%nat.
Proof.
  intros New cnew cfg r evs w Hn Hr ids.
  destruct (flow_reachable _ _ _ _ _ _ Hn Hr) as [Hf Hc].
  destruct (intercept_ids_sent _ Hf) as [Hseq Hle2].
  destruct Hf as (pendS & pendR & _ & _ & Hm & _ & Hans & Hle & _).
  subst ids.
  split; [exact Hseq |].
  split; [rewrite Hseq; apply seq_NoDup |].
  split; [exact Hans |].
  split; [rewrite Hans; apply NoDup_map_Intercept, seq_NoDup |].
  split; [exact Hle |].
  rewrite Hm; exact Hle2.
Qed.

Lemma intercept_channels_single_use_witness :
  let c := Fixture.cond_equals "bar" in
  let r := Fixture.decorator false c (Fixture.equals "bar") in
  NewReadUntil Fixture.New Fixture.condition_New (Fixture.rConf false c)
  = inl r /\
  exists w,
    run ([Worker Tick] ++ intercept_one (["bar"], 1%nat) Fixture.failed
           ++ intercept_one (["bar"], 1%nat) Fixture.ok)%list (spawn r)
    = Some w /\
    intercept_ids (sent (trace w)) = [0%nat; 1%nat] /\
    NoDup (answered (trace w)).
Proof.
  intros c r.
  split; [reflexivity |].
  eexists; split; [reflexivity |].
  split; [reflexivity |].
  destruct (intercept_channels_single_use
              Fixture.New Fixture.condition_New (Fixture.rConf false c) r
              ([Worker Tick] ++ intercept_one (["bar"], 1%nat) Fixture.failed
                 ++ intercept_one (["bar"], 1%nat) Fixture.ok)%list
              _ eq_refl eq_refl)
    as (_ & _ & _ & Hnd & _).
  exact Hnd.
Defined.

(* ------------------------------------------------------------------ *)
(** ** The life of the wrapped producers *)

Lemma lifecycle_app (h1 h2 : list Obs) :
  forall l,
    lifecycle l (h1 ++ h2)
    = match lifecycle l h1 with
      | Some l' => lifecycle l' h2
      | None => None
      end.
Proof.
  induction h1 as [| o h1 IH]; intros l; simpl; [reflexivity |].
  destruct o; try apply IH.
  - destruct l as [[q |] | |]; try reflexivity; apply IH.
  - destruct (is_current l p); [apply IH | reflexivity].
  - destruct (is_current l p); [apply IH | reflexivity].
  - destruct (is_current l p); [apply IH | reflexivity].
  - destruct l as [| q |]; try reflexivity.
    destruct (Nat.eqb q p); [apply IH | reflexivity].
Qed.

Lemma life_step (e : Event) (w w' : World) (l0 : Life) :
  Inv w ->
  lifecycle l0 (rev (trace w)) = Some (life_of w) ->
  step e w = Some w' ->
  lifecycle l0 (rev (trace w')) = Some (life_of w').
Proof.
  intros HI Hl Hs.
  pose proof (inv_panic HI) as Hp.
  pose proof (inv_pc HI) as Hpc.
  destruct w as [[rn cf wr cd tx cc cdc] p tr st lg cl pk].
  unfold life_of, pc_facts, step, loop_step, on_close,
    CompareAndSwapInt32 in *.
  simpl in *; subst pk.
  destruct e as [we | |].
  - destruct p; destruct we; try discriminate;
      break_match_hyp Hs; try discriminate; injection Hs as <-; simpl;
      rewrite ?app_nil_r;
      repeat (rewrite lifecycle_app; simpl);
      rewrite ?Hl; simpl; rewrite ?Nat.eqb_refl; simpl;
      try reflexivity; try congruence;
      subst wr; reflexivity.
  - break_match_hyp Hs; injection Hs as <-; simpl;
      rewrite ?lifecycle_app, ?Hl; simpl; destruct p; reflexivity.
  - break_match_hyp Hs; try discriminate; injection Hs as <-; simpl;
      rewrite ?lifecycle_app, ?Hl; simpl; destruct p; reflexivity.
Qed.

Lemma life_run (evs : list Event) (l0 : Life) :
  forall w w',
    Inv w ->
    lifecycle l0 (rev (trace w)) = Some (life_of w) ->
    run evs w = Some w' ->
    lifecycle l0 (rev (trace w')) = Some (life_of w').
Proof.
  induction evs as [| e evs IH]; simpl; intros w w' HI Hl Hr.
  - injection Hr as <-; exact Hl.
  - destruct (step e w) as [w1 |] eqn:Hs; [| discriminate].
    eapply IH; [| | exact Hr].
    + eapply Inv_step; eassumption.
    + eapply life_step; eassumption.
Qed.

Lemma new_on_step (e : Event) (w w' : World) :
  new_on (Input (conf (ru w))) (trace w) ->
  step e w = Some w' ->
  new_on (Input (conf (ru w'))) (trace w').
Proof.
  intros Hn Hs.
  destruct w as [[rn cf wr cd tx cc cdc] p tr st lg cl pk].
  unfold new_on, step, loop_step, on_close, CompareAndSwapInt32 in *.
  simpl in *.
  destruct pk; [discriminate |].
  destruct e as [we | |].
  - destruct p; destruct we; try discriminate;
      break_match_hyp Hs; try discriminate; injection Hs as <-; simpl;
      repeat match goal with
             | H : Input ?c = _ |- context [Input ?c] => rewrite H
             end;
      repeat (apply Forall_cons; [first [exact I | reflexivity] |]);
      assumption.
  - break_match_hyp Hs; injection Hs as <-; simpl;
      repeat (constructor; try exact I); assumption.
  - break_match_hyp Hs; try discriminate; injection Hs as <-; simpl;
      repeat (constructor; try exact I); assumption.
Qed.

Lemma new_on_run (evs : list Event) :
  forall w w',
    new_on (Input (conf (ru w))) (trace w) ->
    run evs w = Some w' ->
    new_on (Input (conf (ru w'))) (trace w').
Proof.
  induction evs as [| e evs IH]; simpl; intros w w' Hn Hr.
  - injection Hr as <-; exact Hn.
  - destruct (step e w) as [w1 |] eqn:Hs; [| discriminate].
    eapply IH; [eapply new_on_step; eassumption | exact Hr].
Qed.

Lemma restart_step (e : Event) (w w' : World) :
  Inv w -> restart_facts w -> step e w = Some w' -> restart_facts w'.
Proof.
  intros HI [H1 H2] Hs.
  pose proof (inv_panic HI) as Hp.
  pose proof (inv_pc HI) as Hpc.
  destruct w as [[rn cf wr cd tx cc cdc] p tr st lg cl pk].
  unfold restart_facts, pc_facts, step, loop_step, on_close,
    CompareAndSwapInt32, count in *.
  simpl in *; subst pk.
  destruct e as [we | |].
  - destruct p; destruct we; try discriminate;
      break_match_hyp Hs; try discriminate; injection Hs as <-; simpl in *;
      split; intros; try discriminate; try congruence;
      try subst wr;
      try (specialize (H2 eq_refl)); try lia;
      try (specialize (H2 eq_refl)); try lia; auto.
  - break_match_hyp Hs; injection Hs as <-; simpl; split; auto.
  - break_match_hyp Hs; try discriminate; injection Hs as <-; simpl;
      split; auto.
Qed.

Lemma restart_run (evs : list Event) :
  forall w w', Inv w -> restart_facts w -> run evs w = Some w' ->
               restart_facts w'.
Proof.
  induction evs as [| e evs IH]; simpl; intros w w' HI Hf Hr.
  - injection Hr as <-; exact Hf.
  - destruct (step e w) as [w1 |] eqn:Hs; [| discriminate].
    eapply IH; [| | exact Hr].
    + eapply Inv_step; eassumption.
    + eapply restart_step; eassumption.
Qed.

(** X4.  The wrapped producers are used one at a time.  Read oldest first,
    the trace of every reachable world keeps these rules: a transaction is
    read, and a channel is seen closed, only on the producer that is
    current; [New] is called only when there is no current producer (at
    the start the one built by [NewReadUntil], later none until the
    current one's channel was seen closed), always on the wrapped
    configuration given at construction; the deferred function asks the
    current producer to close, once, and then waits on that producer only,
    until it confirms; a producer whose channel was seen closed is never
    asked to close.  The field [r.wrapped] and the place of the worker
    agree with the trace. *)
Theorem producers_one_at_a_time :
  forall New cnew cfg r evs w,
    NewReadUntil New cnew cfg = inl r ->
    run evs (spawn r) = Some w ->
    lifecycle (Current (wrapped r)) (rev (trace w)) = Some (life_of w) /\
    new_on (Input (cReadUntil cfg)) (trace w) /\
    (count is_new (trace w)
     <= count is_recv_closed (trace w))%nat.
Proof.
  intros New cnew cfg r evs w Hn Hr.
  pose proof (Inv_spawn _ _ _ _ Hn) as HI.
  assert (Hl : lifecycle (Current (wrapped r)) (rev (trace w))
               = Some (life_of w)).
  { eapply life_run; [exact HI | reflexivity | exact Hr]. }
  split; [exact Hl |].
  split.
  { destruct (conf_run _ _ _ Hr) as [Hcf _]; simpl in Hcf.
    destruct (NewReadUntil_inl _ _ _ _ Hn) as (_ & Hcr & _).
    rewrite <- Hcr, <- Hcf.
    eapply new_on_run; [| exact Hr]; constructor. }
  destruct (NewReadUntil_inl _ _ _ _ Hn) as (_ & _ & _ & Hw & _).
  eapply (restart_run evs (spawn r)); [exact HI | | exact Hr].
  split; simpl; [unfold count; simpl; lia | intros _ H; contradiction].
Qed.

Lemma producers_one_at_a_time_witness :
  NewReadUntil Fixture.New Fixture.condition_New
    (Fixture.rConf true (Fixture.cond_static false))
  = inl Fixture.restarting /\
  exists w,
    run [Worker Tick; Worker Tick; Worker (Recv ["foo"] 0); Worker Taken;
         Worker Tick; Worker RecvClosed; Worker Tick;
         Worker (NewReturns (inl 7%nat)); Worker (Recv ["foo"] 0);
         CloseAsyncSwap; CloseAsyncClose; Worker CloseSignal; Worker Tick;
         Worker (WrappedClosed (Some "timed out"))]
        (spawn Fixture.restarting) = Some w /\
    lifecycle (Current (Some 0%nat)) (rev (trace w)) = Some (Asked 7%nat).
Proof.
  split; [reflexivity |].
  eexists; split; [reflexivity |].
  exact (proj1 (producers_one_at_a_time
                  Fixture.New Fixture.condition_New
                  (Fixture.rConf true (Fixture.cond_static false))
                  Fixture.restarting
                  [Worker Tick; Worker Tick; Worker (Recv ["foo"] 0);
                   Worker Taken; Worker Tick; Worker RecvClosed; Worker Tick;
                   Worker (NewReturns (inl 7%nat)); Worker (Recv ["foo"] 0);
                   CloseAsyncSwap; CloseAsyncClose; Worker CloseSignal;
                   Worker Tick; Worker (WrappedClosed (Some "timed out"))]
                  _ eq_refl eq_refl)).
Defined.


(* ------------------------------------------------------------------ *)
(** ** Shutdown *)

Lemma after_swap_step (e : Event) (w w' : World) :
  running (ru w) = 0 -> step e w = Some w' ->
  running (ru w') = 0 /\
  (List.length (received (trace w')) + reads_left (pc w')
   <= List.length (received (trace w)) + reads_left (pc w))%nat /\
  (List.length (sent (trace w')) + sends_left (pc w')
   <= List.length (sent (trace w)) + sends_left (pc w))%nat /\
  (List.length (relayed (trace w')) + relays_left (pc w')
   <= List.length (relayed (trace w)) + relays_left (pc w))%nat /\
  (count is_new (trace w') + news_left (pc w')
   <= count is_new (trace w) + news_left (pc w))%nat.
Proof.
  intros Hrun Hs.
  destruct w as [[rn cf wr cd tx cc cdc] p tr st lg cl pk].
  unfold step, loop_step, on_close, CompareAndSwapInt32, count in *.
  simpl in *; subst rn.
  destruct pk; [discriminate |].
  destruct e as [we | |].
  - destruct p; destruct we; try discriminate;
      break_match_hyp Hs; try discriminate; injection Hs as <-; simpl;
      rewrite ?length_app; simpl; repeat split; lia.
  - simpl in Hs; injection Hs as <-; simpl; repeat split; lia.
  - break_match_hyp Hs; try discriminate; injection Hs as <-; simpl;
      repeat split; lia.
Qed.

(** X5.  Shutdown is prompt.  From any world in which a [CloseAsync] has
    cleared the running flag, whatever the producer, the consumer and the
    selects of the worker do afterwards: at most one more transaction is
    read from a producer and at most one more is sent downstream, at most
    one more response is relayed, and no input is made, except by a call
    of [New] that was already under way.  Where the worker stands at the
    guard, or past a send, nothing more is read at all. *)
Theorem bounded_work_after_CloseAsync :
  forall evs w w',
    running (ru w) = 0 ->
    run evs w = Some w' ->
    running (ru w') = 0 /\
    (List.length (received (trace w'))
     <= List.length (received (trace w)) + reads_left (pc w))%nat /\
    (List.length (sent (trace w'))
     <= List.length (sent (trace w)) + sends_left (pc w))%nat /\
    (List.length (relayed (trace w'))
     <= List.length (relayed (trace w)) + relays_left (pc w))%nat /\
    (count is_new (trace w')
     <= count is_new (trace w) + news_left (pc w))%nat.
Proof.
  induction evs as [| e evs IH]; simpl; intros w w' Hrun Hr.
  - injection Hr as <-; repeat split; lia.
  - destruct (step e w) as [w1 |] eqn:Hs; [| discriminate].
    destruct (after_swap_step _ _ _ Hrun Hs) as (H0 & H1 & H2 & H3 & H4).
    destruct (IH _ _ H0 Hr) as (H0' & H1' & H2' & H3' & H4').
    repeat split; try assumption; lia.
Qed.

Lemma bounded_work_after_CloseAsync_witness :
  let r := Fixture.decorator false (Fixture.cond_equals "bar")
             (Fixture.equals "bar") in
  let w := after_swap (Fixture.waiting r) in
  run [CloseAsyncSwap] (Fixture.waiting r) = Some w /\
  running (ru w) = 0 /\
  exists w',
    run [Worker (Recv ["foo"] 0); Worker Taken; Worker Tick] w = Some w' /\
    (List.length (received (trace w')) <= 1)%nat /\
    pc w' = PDefer.
Proof.
  intros r w.
  split; [reflexivity |].
  split; [reflexivity |].
  eexists.
  split; [reflexivity |].
  split; [| reflexivity].
  exact (proj1 (proj2 (bounded_work_after_CloseAsync
                         [Worker (Recv ["foo"] 0); Worker Taken; Worker Tick]
                         w _ eq_refl eq_refl))).
Defined.
